(** * GenericStoryGameV2: the story data-access layer and the router

    A shallow embedding of [src/scripts/story.ts] and [router/index.ts].

    The TypeScript code talks to three things that are not part of it:
    - the JavaScript engine ([JSON.parse], [JSON.stringify], [Date],
      [String.prototype.split] ...): the walks that call the reviver and
      the replacer are written out below, the text grammar of JSON and the
      calendar arithmetic of [Date] are fields of [Runtime];
    - the Tauri file-system API ([readTextFile], [readDir], ...): a small
      state-and-exception monad [IO] over a [World];
    - the sibling modules [utils.ts], [strings.ts], [templateStoryData.ts]
      and [book.png.ts]: the records [Utils], [Strings] and [Templates]. *)

From Stdlib Require Import Ascii String DecimalString.
From stdpp Require Import gmap strings list fin_maps.

#[local] Set Warnings "-register-all".
#[local] Open Scope string_scope.

(** ** Exceptions and results *)

Inductive exn :=
| SyntaxError
| TypeError
| IOError (p : string).

Inductive result (A : Type) :=
| Ok (a : A)
| Throw (e : exn).
Arguments Ok {A} a.
Arguments Throw {A} e.

Definition result_bind {A B} (m : result A) (k : A -> result B) : result B :=
  match m with
  | Ok a => k a
  | Throw e => Throw e
  end.

Notation "x <-? m ;; k" := (result_bind m (fun x => k))
  (at level 100, m at next level, right associativity).

Definition is_Ok {A} (m : result A) : bool :=
  match m with Ok _ => true | Throw _ => false end.

(** ** JSON documents and JavaScript values *)

(** A Number: a finite double [mantissa * 2 ^ exponent], an infinity, or
    NaN.  The code never computes with numbers; it only lets them through,
    and the engine tests them for zero, NaN and finiteness. *)
Inductive number :=
| Finite (mantissa exponent : Z)
| Infinity (negative : bool)
| NaN.

#[global] Instance number_eq_dec : EqDecision number.
Proof. solve_decision. Defined.

Definition is_zero (x : number) : bool :=
  match x with
  | Finite m _ => bool_decide (m = 0%Z)
  | _ => false
  end.

Definition is_nan (x : number) : bool :=
  match x with
  | NaN => true
  | _ => false
  end.

Definition is_finite (x : number) : bool :=
  match x with
  | Finite _ _ => true
  | _ => false
  end.

(** What a JSON text denotes: the tree [JSON.parse] builds before any
    reviver runs.  Object members are kept in the order in which the
    engine enumerates them. *)
Inductive json :=
| JNull
| JBool (b : bool)
| JNum (x : number)
| JStr (s : string)
| JArr (l : list json)
| JObj (m : list (string * json)).

(** Values at run time.  A [Date] carries its time value, NaN for an
    invalid date. *)
Inductive value :=
| VUndef
| VNull
| VBool (b : bool)
| VNum (x : number)
| VStr (s : string)
| VDate (t : number)
| VArr (l : list value)
| VObj (m : list (string * value)).

(** [holder[key]]: own property lookup, [undefined] when absent. *)
Fixpoint get (m : list (string * value)) (key : string) : value :=
  match m with
  | [] => VUndef
  | (k, v) :: rest => if decide (k = key) then v else get rest key
  end.

(** [holder[key] = v]: overwrite in place, or append a new property. *)
Fixpoint set (m : list (string * value)) (key : string) (v : value)
  : list (string * value) :=
  match m with
  | [] => [(key, v)]
  | (k, x) :: rest =>
      if decide (k = key) then (k, v) :: rest else (k, x) :: set rest key v
  end.

(** [ToBoolean]. *)
Definition truthy (v : value) : bool :=
  match v with
  | VUndef | VNull => false
  | VBool b => b
  | VNum x => negb (is_zero x || is_nan x)
  | VStr s => negb (bool_decide (s = ""))
  | VDate _ | VArr _ | VObj _ => true
  end.

(** [v == null]. *)
Definition nullish (v : value) : bool :=
  match v with
  | VUndef | VNull => true
  | _ => false
  end.

(** [ToString] of an array index. *)
Definition index_key (i : nat) : string :=
  NilEmpty.string_of_uint (Nat.to_uint i).

(** ** Strings: [split], [join], [pop], [replace] *)

(** [s.split(sep)] for a one-character separator. *)
Fixpoint split (sep : ascii) (s : string) : list string :=
  match s with
  | EmptyString => [""]
  | String c r =>
      if decide (c = sep) then "" :: split sep r
      else match split sep r with
           | x :: xs => String c x :: xs
           | [] => [String c ""]
           end
  end.

(** [l.join(sep)]. *)
Fixpoint join (sep : ascii) (l : list string) : string :=
  match l with
  | [] => ""
  | [x] => x
  | x :: xs => x ++ String sep (join sep xs)
  end.

(** The array after [l.pop()]; popping an empty array leaves it empty. *)
Definition pop {A} (l : list A) : list A := removelast l.

Fixpoint string_drop (n : nat) (s : string) : string :=
  match n, s with
  | O, _ => s
  | S n', String _ r => string_drop n' r
  | S _, EmptyString => ""
  end.

(** [s.replace(pat, rep)] with a string pattern: only the first
    occurrence is replaced.  [rep] is taken literally (the source passes
    the empty string, which has no [$] patterns). *)
Fixpoint replace (pat rep s : string) : string :=
  if String.prefix pat s then rep ++ string_drop (String.length pat) s
  else match s with
       | EmptyString => ""
       | String c r => String c (replace pat rep r)
       end.

(** ** What the code takes from outside *)

(** The JavaScript engine and the platform.  [sep] is the separator
    exported by [@tauri-apps/api/path], one character on every platform.
    [JSON_parse_text] is the grammar of JSON texts ([None]: SyntaxError),
    [JSON_text] the text [JSON.stringify] prints for a finished tree.
    [Date_new v] is the time value of [new Date(v)].  [loose_eq_coerced v s]
    is [v == s] for an operand [v] that is neither a string nor nullish
    (the comparison coerces it first).  The two identifier sources are
    indexed by the number of identifiers drawn so far. *)
Class Runtime := {
  sep : ascii;
  JSON_parse_text : string -> option json;
  JSON_text : json -> string;
  Date_new : value -> number;
  Date_toISOString : number -> string;
  loose_eq_coerced : value -> string -> bool;
  crypto_randomUUID : nat -> string;
  uuidv4 : nat -> string
}.

(** [strings.ts]: the constants [strings.fileNames.*] and
    [strings.navigationKeywords.end]. *)
Class Strings := {
  fileNames_collectionsFolder : string;
  fileNames_workspaceFolder : string;
  fileNames_scenesFolder : string;
  fileNames_resourcesFolder : string;
  fileNames_core : string;
  fileNames_thumbnail : string;
  fileNames_firstScene : string;
  fileNames_secondScene : string;
  navigationKeywords_end : string
}.

(** [utils.ts].  The helpers are declared on strings; the reviver and the
    replacer hand them whatever the JSON document holds, so each of the two
    helpers they call also says what it does with a value that is not a
    string ([Throw]: it raises).  They are declared to return strings
    ([createNewStory] returns a [joinPath] result as [Promise<string>]);
    what [joinPath] answers when it is handed null or undefined is left
    open: [joinPath_nullish] may answer any value, the null itself
    included. *)
Class Utils := {
  sanitizePath : string -> string;
  joinPath : string -> string -> string;
  convertAbsoluteToRelative : string -> string -> string;
  getObjFromPath : string -> string;
  joinPath_nullish : string -> value -> result value;
  joinPath_untyped : string -> value -> result string;
  convertAbsoluteToRelative_untyped : value -> string -> result string
}.

(** ** The interfaces of [story.ts] *)

Record StoryInfo := {
  title : string;
  description : string;
  author : string;
  creation_date : number;
  thumbnail : string;
  entry_point : string;
  base_dir : string
}.

Record MultipleChoice := {
  action : string;
  destination : string
}.

Record SceneActions := {
  multiple_choice : option (list MultipleChoice);
  single_choice : option string
}.

Record SceneInfo := {
  center_text : option string;
  narration_text : option string;
  background_color : option string;
  media : option string;
  scene_actions : SceneActions
}.

Inductive StoryLocation := Collections | Workspace.

(** [templateStoryData.ts] and [book.png.ts]. *)
Class Templates := {
  templateStoryInfo : string -> string -> string -> StoryInfo;
  templateSceneInfo1 : SceneInfo;
  templateSceneInfo2 : SceneInfo;
  bookUint8Array : list Byte.byte
}.

(** The objects behind the interfaces, properties in declaration order. *)
Definition nullable (o : option string) : value :=
  match o with
  | Some s => VStr s
  | None => VNull
  end.

Definition StoryInfo_value (s : StoryInfo) : value :=
  VObj [("title", VStr (title s));
        ("description", VStr (description s));
        ("author", VStr (author s));
        ("creation_date", VDate (creation_date s));
        ("thumbnail", VStr (thumbnail s));
        ("entry_point", VStr (entry_point s));
        ("base_dir", VStr (base_dir s))].

Definition MultipleChoice_value (c : MultipleChoice) : value :=
  VObj [("action", VStr (action c)); ("destination", VStr (destination c))].

Definition SceneActions_value (a : SceneActions) : value :=
  VObj [("multiple_choice",
         match multiple_choice a with
         | Some l => VArr (MultipleChoice_value <$> l)
         | None => VNull
         end);
        ("single_choice", nullable (single_choice a))].

Definition SceneInfo_value (s : SceneInfo) : value :=
  VObj [("center_text", nullable (center_text s));
        ("narration_text", nullable (narration_text s));
        ("background_color", nullable (background_color s));
        ("media", nullable (media s));
        ("scene_actions", SceneActions_value (scene_actions s))].

(** [ExtraSceneInfo]; [base_scene_info] is whatever the parse produced
    (the cast [as SceneInfo] checks nothing). *)
Record ExtraSceneInfo := {
  base_scene_info : value;
  scene_name : string;
  scene_path : string
}.

(** ** The file system and the [IO] monad *)

(** An entry of [readDir]. *)
Record FileEntry := {
  path : string;
  name : option string
}.

(** Text files, binary files, directory listings, and the two inputs of
    the identifier choice in [createNewStory]. *)
Record World := {
  textFiles : gmap string string;
  binaryFiles : gmap string (list Byte.byte);
  directories : gmap string (list FileEntry);
  isSecureContext : bool;
  uuidsDrawn : nat
}.

Definition IO (A : Type) : Type := World -> result A * World.

Definition io_ret {A} (a : A) : IO A := fun w => (Ok a, w).

Definition io_throw {A} (e : exn) : IO A := fun w => (Throw e, w).

Definition io_bind {A B} (m : IO A) (k : A -> IO B) : IO B :=
  fun w =>
    match m w with
    | (Ok a, w') => k a w'
    | (Throw e, w') => (Throw e, w')
    end.

Notation "x <- m ;; k" := (io_bind m (fun x => k))
  (at level 100, m at next level, right associativity).

(** [try { body } catch { handler }]. *)
Definition try_catch {A} (body handler : IO A) : IO A :=
  fun w =>
    match body w with
    | (Ok a, w') => (Ok a, w')
    | (Throw _, w') => handler w'
    end.

Definition io_lift {A} (r : result A) : IO A := fun w => (r, w).

Definition readTextFile (p : string) : IO string :=
  fun w =>
    match textFiles w !! p with
    | Some t => (Ok t, w)
    | None => (Throw (IOError p), w)
    end.

Definition readDir (p : string) : IO (list FileEntry) :=
  fun w =>
    match directories w !! p with
    | Some l => (Ok l, w)
    | None => (Throw (IOError p), w)
    end.

(** The directory a path lies in and its name there, the path being cut
    at its last platform separator.  [None]: the path has no separator. *)
Definition parent_and_name {RT : Runtime} (p : string)
  : option (string * string) :=
  match split sep p with
  | [] | [_] => None
  | components => Some (join sep (pop components), List.last components "")
  end.

(** The listings once [p] exists: [p] is entered in the listing of its
    directory, unless it is listed there already.  (A directory the world
    does not list stays unlisted.) *)
Definition listed {RT : Runtime} (p : string)
  (dirs : gmap string (list FileEntry)) : gmap string (list FileEntry) :=
  match parent_and_name p with
  | Some (d, n) =>
      match dirs !! d with
      | Some l =>
          if bool_decide (p ∈ (path <$> l)) then dirs
          else <[d := (l ++ [{| path := p; name := Some n |}])%list]> dirs
      | None => dirs
      end
  | None => dirs
  end.

(** The listings once the directory [p] exists: a missing one appears,
    empty, and is entered in the listing of its own directory. *)
Definition with_new_directory {RT : Runtime} (p : string)
  (dirs : gmap string (list FileEntry)) : gmap string (list FileEntry) :=
  listed p match dirs !! p with
           | Some _ => dirs
           | None => <[p := []]> dirs
           end.

(** The paths [c0], [c0/c1], [c0/c1/c2], ... of a path [c0/c1/.../cn]. *)
Fixpoint prefixes_from {RT : Runtime} (sofar : string)
  (components : list string) : list string :=
  match components with
  | [] => []
  | c :: rest =>
      let next := sofar ++ String sep c in
      next :: prefixes_from next rest
  end.

Definition path_prefixes {RT : Runtime} (p : string) : list string :=
  match split sep p with
  | [] => []
  | c :: rest => c :: prefixes_from c rest
  end.

(** The directories above [p], outermost first; the root (the empty
    prefix of an absolute path) is not one the world keeps a listing of. *)
Definition ancestors {RT : Runtime} (p : string) : list string :=
  filter (fun d => d <> "") (pop (path_prefixes p)).

(** [createDir(p, { recursive: true })]: the missing directories above [p]
    are created, outermost first, then [p] itself; a directory that exists
    is left as it is. *)
Definition created_recursively {RT : Runtime} (p : string)
  (dirs : gmap string (list FileEntry)) : gmap string (list FileEntry) :=
  with_new_directory p
    (foldl (fun ds d => with_new_directory d ds) dirs (ancestors p)).

(** Writing a file creates or overwrites it and enters it in the listing
    of its directory.  The writes here do not fail: whether the directory
    of the file exists is not looked at. *)
Definition writeTextFile {RT : Runtime} (p contents : string) : IO unit :=
  fun w =>
    (Ok tt,
     {| textFiles := <[p := contents]> (textFiles w);
        binaryFiles := binaryFiles w;
        directories := listed p (directories w);
        isSecureContext := isSecureContext w;
        uuidsDrawn := uuidsDrawn w |}).

Definition writeBinaryFile {RT : Runtime} (p : string)
  (contents : list Byte.byte) : IO unit :=
  fun w =>
    (Ok tt,
     {| textFiles := textFiles w;
        binaryFiles := <[p := contents]> (binaryFiles w);
        directories := listed p (directories w);
        isSecureContext := isSecureContext w;
        uuidsDrawn := uuidsDrawn w |}).

Definition createDir_recursive {RT : Runtime} (p : string) : IO unit :=
  fun w =>
    (Ok tt,
     {| textFiles := textFiles w;
        binaryFiles := binaryFiles w;
        directories := created_recursively p (directories w);
        isSecureContext := isSecureContext w;
        uuidsDrawn := uuidsDrawn w |}).

(** Every directory that was listed is still listed, with the entries it
    had and perhaps more after them. *)
Definition grows (dirs dirs' : gmap string (list FileEntry)) : Prop :=
  forall d l, dirs !! d = Some l ->
              exists more, dirs' !! d = Some (l ++ more)%list.

(** The directory [d] is listed, and the path [p] is among its entries. *)
Definition entered (dirs : gmap string (list FileEntry)) (d p : string)
  : Prop :=
  exists l, dirs !! d = Some l /\ p ∈ (path <$> l).

(** [readDir(d)] answers, and [p] is the path of one of the entries. *)
Definition lists (w : World) (d p : string) : Prop :=
  exists l, readDir d w = (Ok l, w) /\ p ∈ (path <$> l).

(** ** [JSON.parse] with a reviver, [JSON.stringify] with a replacer *)

Definition Reviver : Type := string -> value -> result value.

(** InternalizeJSONProperty: the members are revived first, in order, then
    the reviver is called on the holder's property itself.  A member whose
    reviver answers [undefined] is deleted from an object and left as a
    hole in an array. *)
Fixpoint internalize (reviver : Reviver) (key : string) (j : json)
  : result value :=
  match j with
  | JNull => reviver key VNull
  | JBool b => reviver key (VBool b)
  | JNum x => reviver key (VNum x)
  | JStr s => reviver key (VStr s)
  | JArr l =>
      els <-? (fix elements (i : nat) (l : list json) : result (list value) :=
                 match l with
                 | [] => Ok []
                 | x :: rest =>
                     v <-? internalize reviver (index_key i) x ;;
                     vs <-? elements (S i) rest ;;
                     Ok (v :: vs)
                 end) 0 l ;;
      reviver key (VArr els)
  | JObj m =>
      members <-? (fix members (m : list (string * json))
                     : result (list (string * value)) :=
                     match m with
                     | [] => Ok []
                     | (k, x) :: rest =>
                         v <-? internalize reviver k x ;;
                         vs <-? members rest ;;
                         Ok (match v with
                             | VUndef => vs
                             | _ => (k, v) :: vs
                             end)
                     end) m ;;
      reviver key (VObj members)
  end.

(** A replacer of the shape [story.ts] uses: for a key it either answers a
    string of its own ([Some]) or hands [value] back ([None]). *)
Definition Replacer : Type := string -> value -> result (option string).

Section Engine.
Context {RT : Runtime}.

Definition JSON_parse (text : string) (reviver : Reviver) : result value :=
  match JSON_parse_text text with
  | Some j => internalize reviver "" j
  | None => Throw SyntaxError
  end.

(** [Date.prototype.toJSON]; every other value here has no [toJSON]. *)
Definition toJSON (v : value) : value :=
  match v with
  | VDate t => if is_finite t then VStr (Date_toISOString t) else VNull
  | _ => v
  end.

(** SerializeJSONProperty: [toJSON] first, then the replacer, then the
    value by its type.  [None] is [undefined]: such a member is left out
    of an object and printed as [null] in an array. *)
Fixpoint serialize (replacer : option Replacer) (key : string) (v : value)
  : result (option json) :=
  r <-? match replacer with
        | Some f => f key (toJSON v)
        | None => Ok None
        end ;;
  match r with
  | Some s => Ok (Some (JStr s))
  | None =>
      match v with
      | VUndef => Ok None
      | VNull => Ok (Some JNull)
      | VBool b => Ok (Some (JBool b))
      | VNum x => Ok (Some (if is_finite x then JNum x else JNull))
      | VStr s => Ok (Some (JStr s))
      | VDate t =>
          Ok (Some (if is_finite t then JStr (Date_toISOString t) else JNull))
      | VArr l =>
          els <-? (fix elements (i : nat) (l : list value)
                     : result (list json) :=
                     match l with
                     | [] => Ok []
                     | x :: rest =>
                         j <-? serialize replacer (index_key i) x ;;
                         js <-? elements (S i) rest ;;
                         Ok (default JNull j :: js)
                     end) 0 l ;;
          Ok (Some (JArr els))
      | VObj m =>
          members <-? (fix members (m : list (string * value))
                         : result (list (string * json)) :=
                         match m with
                         | [] => Ok []
                         | (k, x) :: rest =>
                             j <-? serialize replacer k x ;;
                             js <-? members rest ;;
                             Ok (match j with
                                 | Some j' => (k, j') :: js
                                 | None => js
                                 end)
                         end) m ;;
          Ok (Some (JObj members))
      end
  end.

(** The tree [JSON.stringify] prints, and the text ([None]: [undefined]). *)
Definition JSON_stringify_tree (v : value) (replacer : option Replacer)
  : result (option json) :=
  serialize replacer "" v.

Definition JSON_stringify (v : value) (replacer : option Replacer)
  : result (option string) :=
  j <-? JSON_stringify_tree v replacer ;;
  Ok (JSON_text <$> j).

(** [writeTextFile] given the result of [JSON.stringify]: the API rejects
    a call whose contents are [undefined]. *)
Definition writeTextFile_opt (p : string) (contents : option string)
  : IO unit :=
  match contents with
  | Some c => writeTextFile p c
  | None => io_throw TypeError
  end.
End Engine.

(** ** [story.ts] *)

(** The constants the module computes when it is loaded (lines 13-27):
    [$APPDATA/collections] and [$APPDATA/workspace], after
    [ensureDirExists]. *)
Class ModulePaths := {
  collectionsPath : string;
  workspacePath : string
}.

Record ExtraStoryInfo := {
  base_story_info : value;
  resources_count : nat;
  scenes_count : nat
}.

Section Story.
Context {RT : Runtime} {ST : Strings} {UT : Utils} {TP : Templates}
  {MP : ModulePaths}.

(** [joinPath(baseDir, value)] and [convertAbsoluteToRelative(value,
    baseDir)] as the reviver and the replacer call them, on a value of
    any type. *)
Definition joinPath_any (baseDir : string) (v : value) : result value :=
  match v with
  | VStr s => Ok (VStr (joinPath baseDir s))
  | VUndef | VNull => joinPath_nullish baseDir v
  | _ => s <-? joinPath_untyped baseDir v ;; Ok (VStr s)
  end.

Definition convertAbsoluteToRelative_any (v : value) (baseDir : string)
  : result string :=
  match v with
  | VStr s => Ok (convertAbsoluteToRelative s baseDir)
  | _ => convertAbsoluteToRelative_untyped v baseDir
  end.

(** The reviver of [resolveStoryInfo] (lines 195-212). *)
Definition resolveStoryInfo_reviver (baseDir : string) : Reviver :=
  fun key v =>
    if bool_decide (key = "creation_date") then
      Ok (VDate (Date_new v))
    else if bool_decide (key = "thumbnail")
            || bool_decide (key = "entry_point") then
      joinPath_any baseDir v
    else if bool_decide (key = "base_dir") then
      Ok (VStr (sanitizePath baseDir))
    else Ok v.

Definition resolveStoryInfo (baseDir : string) : IO value :=
  storyInfoAsJSON <- readTextFile (joinPath baseDir fileNames_core) ;;
  io_lift (JSON_parse storyInfoAsJSON (resolveStoryInfo_reviver baseDir)).

(** [resolveStoriesFromFS]: the body of the [for ... in] loop, then the
    loop over the entries, [storyInfos] being the array built so far. *)
Definition resolveStories_step (storyInfos : list value) (entry : FileEntry)
  : IO (list value) :=
  try_catch
    (let baseDir := path entry in
     storyInfo <- resolveStoryInfo baseDir ;;
     io_ret (storyInfos ++ [storyInfo])%list)
    (io_ret storyInfos).

Fixpoint resolveStories_loop (entries : list FileEntry)
  (storyInfos : list value) : IO (list value) :=
  match entries with
  | [] => io_ret storyInfos
  | entry :: rest =>
      storyInfos' <- resolveStories_step storyInfos entry ;;
      resolveStories_loop rest storyInfos'
  end.

Definition resolveStoriesFromFS (location : StoryLocation)
  : IO (list value) :=
  collectionsDirContent <-
    match location with
    | Collections => readDir collectionsPath
    | Workspace => readDir workspacePath
    end ;;
  if bool_decide (length collectionsDirContent <= 0) then io_ret []
  else resolveStories_loop collectionsDirContent [].

(** The two immediately-invoked functions of [resolveSceneActions]
    (lines 244-253 and 259-268) have the same body. *)
Definition loose_eq_end (v : value) : bool :=
  match v with
  | VStr s => bool_decide (s = navigationKeywords_end)
  | VUndef | VNull => false
  | _ => loose_eq_coerced v navigationKeywords_end
  end.

Definition resolveDestination (baseDir : string) (v : value) : result value :=
  if nullish v || loose_eq_end v then Ok v
  else joinPath_any baseDir v.

(** The callback of [multiple_choice.map].  Reading a property of [null]
    raises; reading one of another primitive or of an array gives
    [undefined]. *)
Definition resolveMultipleChoice (baseDir : string) (multipleChoice : value)
  : result value :=
  match multipleChoice with
  | VUndef | VNull => Throw TypeError
  | _ =>
      let props :=
        match multipleChoice with
        | VObj m => m
        | _ => []
        end in
      d <-? resolveDestination baseDir (get props "destination") ;;
      Ok (VObj [("action", get props "action"); ("destination", d)])
  end.

Fixpoint mapM {A B} (f : A -> result B) (l : list A) : result (list B) :=
  match l with
  | [] => Ok []
  | x :: rest => y <-? f x ;; ys <-? mapM f rest ;; Ok (y :: ys)
  end.

(** [resolveSceneActions] (lines 237-270).  The module is strict code:
    storing [single_choice] into a primitive raises.  An array or a Date
    handed in gains a property [single_choice] holding [undefined], which
    nothing can tell from its absence by reading: it is returned as it
    came. *)
Definition resolveSceneActions (sceneAction : value) (baseDir : string)
  : result value :=
  match sceneAction with
  | VUndef | VNull => Throw TypeError
  | VBool _ | VNum _ | VStr _ => Throw TypeError
  | VArr _ | VDate _ => Ok sceneAction
  | VObj m =>
      m1 <-? (let mc := get m "multiple_choice" in
              if truthy mc then
                match mc with
                | VArr l =>
                    l' <-? mapM (resolveMultipleChoice baseDir) l ;;
                    Ok (set m "multiple_choice" (VArr l'))
                | _ => Throw TypeError
                end
              else Ok m) ;;
      sc <-? resolveDestination baseDir (get m1 "single_choice") ;;
      Ok (VObj (set m1 "single_choice" sc))
  end.

Definition resolveBaseDirFromScenePath (scenePath : string) : string :=
  let splittedScenePath := split sep (sanitizePath scenePath) in
  let splittedScenePath := pop splittedScenePath in
  let splittedScenePath := pop splittedScenePath in
  join sep splittedScenePath.

(** The reviver of [resolveSceneInfo] (lines 294-306). *)
Definition resolveSceneInfo_reviver (baseDir : string) : Reviver :=
  fun key v =>
    if bool_decide (key = "media") then
      if negb (nullish v) then joinPath_any baseDir v
      else Ok VNull
    else if bool_decide (key = "scene_actions") then
      resolveSceneActions v baseDir
    else Ok v.

Definition resolveSceneInfo (scenePath : string) : IO value :=
  sceneInfoAsJSON <- readTextFile scenePath ;;
  let baseDir := resolveBaseDirFromScenePath scenePath in
  io_lift (JSON_parse sceneInfoAsJSON (resolveSceneInfo_reviver baseDir)).

(** [resolveScenesFromFS] (lines 155-183). *)
Definition resolveScenes_step (sceneInfos : list ExtraSceneInfo)
  (entry : FileEntry) : IO (list ExtraSceneInfo) :=
  try_catch
    (let scenePath := path entry in
     sceneInfo <- resolveSceneInfo scenePath ;;
     let extraSceneInfo :=
       {| base_scene_info := sceneInfo;
          scene_name := replace ".json" "" (getObjFromPath scenePath);
          scene_path := scenePath |} in
     io_ret (sceneInfos ++ [extraSceneInfo])%list)
    (io_ret sceneInfos).

Fixpoint resolveScenes_loop (entries : list FileEntry)
  (sceneInfos : list ExtraSceneInfo) : IO (list ExtraSceneInfo) :=
  match entries with
  | [] => io_ret sceneInfos
  | entry :: rest =>
      sceneInfos' <- resolveScenes_step sceneInfos entry ;;
      resolveScenes_loop rest sceneInfos'
  end.

Definition resolveScenesFromFS (baseDir : string) : IO (list ExtraSceneInfo) :=
  scenes <- readDir (joinPath baseDir fileNames_scenesFolder) ;;
  resolveScenes_loop scenes [].

Definition resolveExtraStoryInfo (baseDir : string) : IO ExtraStoryInfo :=
  baseStoryInfo <- resolveStoryInfo baseDir ;;
  resources <- readDir (joinPath baseDir fileNames_resourcesFolder) ;;
  scenes <- readDir (joinPath baseDir fileNames_scenesFolder) ;;
  io_ret {| base_story_info := baseStoryInfo;
            resources_count := length resources;
            scenes_count := length scenes |}.

(** [window.isSecureContext ? self.crypto.randomUUID() : uuidv4()]. *)
Definition newUUID : IO string :=
  fun w =>
    (Ok (if isSecureContext w then crypto_randomUUID (uuidsDrawn w)
         else uuidv4 (uuidsDrawn w)),
     {| textFiles := textFiles w;
        binaryFiles := binaryFiles w;
        directories := directories w;
        isSecureContext := isSecureContext w;
        uuidsDrawn := S (uuidsDrawn w) |}).

(** [createNewStory] (lines 317-356).  The two [createDir] calls are not
    awaited; they are issued in this order before the first write. *)
Definition createNewStory (story_title story_description story_author : string)
  : IO string :=
  uuidDirName <- newUUID ;;
  let baseDir := joinPath workspacePath uuidDirName in
  let scenesDir := joinPath baseDir fileNames_scenesFolder in
  let resourcesDir := joinPath baseDir fileNames_resourcesFolder in
  _u1 <- createDir_recursive scenesDir ;;
  _u2 <- createDir_recursive resourcesDir ;;
  let newStoryInfo :=
    templateStoryInfo story_title story_description story_author in
  newStoryInfoAsJSON <-
    io_lift (JSON_stringify (StoryInfo_value newStoryInfo) None) ;;
  _u3 <- writeTextFile_opt (joinPath baseDir fileNames_core)
           newStoryInfoAsJSON ;;
  _u4 <- writeBinaryFile (joinPath resourcesDir fileNames_thumbnail)
           bookUint8Array ;;
  scene1 <- io_lift (JSON_stringify (SceneInfo_value templateSceneInfo1) None) ;;
  _u5 <- writeTextFile_opt (joinPath scenesDir fileNames_firstScene) scene1 ;;
  scene2 <- io_lift (JSON_stringify (SceneInfo_value templateSceneInfo2) None) ;;
  _u6 <- writeTextFile_opt (joinPath scenesDir fileNames_secondScene) scene2 ;;
  io_ret baseDir.

(** The replacer of [writeStoryInfoToDisk] (lines 364-377). *)
Definition writeStoryInfoToDisk_replacer (baseDir : string) : Replacer :=
  fun key v =>
    if bool_decide (key = "thumbnail") || bool_decide (key = "entry_point")
    then s <-? convertAbsoluteToRelative_any v baseDir ;; Ok (Some s)
    else if bool_decide (key = "base_dir") then Ok (Some "")
    else Ok None.

Definition writeStoryInfoToDisk (data : value) (baseDir : string) : IO unit :=
  JSONData <-
    io_lift (JSON_stringify data
               (Some (writeStoryInfoToDisk_replacer baseDir))) ;;
  writeTextFile_opt (joinPath baseDir fileNames_core) JSONData.
End Story.

(** ** The path helpers of [utils.ts], from the specification *)

Definition is_slash (c : ascii) : bool :=
  bool_decide (c = "/"%char) || bool_decide (c = "\"%char).

Fixpoint map_chars (f : ascii -> ascii) (s : string) : string :=
  match s with
  | EmptyString => ""
  | String c r => String (f c) (map_chars f r)
  end.

Fixpoint strip_prefix (p s : string) : option string :=
  match p, s with
  | EmptyString, _ => Some s
  | String a p', String b s' => if decide (a = b) then strip_prefix p' s' else None
  | String _ _, EmptyString => None
  end.

(** What the helpers of [utils.ts] do with a value that is not a string
    ([joinPath]: nor null or undefined).  The specification does not say;
    its model takes it as given. *)
Class UntypedHelpers := {
  given_joinPath_untyped : string -> value -> result string;
  given_convertAbsoluteToRelative_untyped : value -> string -> result string
}.

Section SpecUtils.
Context {RT : Runtime} {UH : UntypedHelpers}.

(** Modelled from the spec: [sanitizePath] of [utils.ts], a file that is
    not among the sources.  Section 2, "join/sanitize/relativize
    filesystem paths across platform separators": a slash of either kind
    becomes the platform separator. *)
Definition spec_sanitizePath (p : string) : string :=
  map_chars (fun c => if is_slash c then sep else c) p.

(** Modelled from the spec: [joinPath] of [utils.ts].  Section 4.1,
    "absolute path (base directory + relative value)": the two parts
    with the platform separator between them. *)
Definition spec_joinPath (a b : string) : string :=
  a ++ String sep b.

(** Modelled from the spec: [convertAbsoluteToRelative] of [utils.ts].
    Section 4.2, "converting absolute thumbnail/entry-point paths back to
    base-dir-relative form", and section 3, the conversion "must be
    exactly inverse in both directions": the base directory and the
    separator after it are taken off the front; a path that is not under
    the base directory is left alone. *)
Definition spec_convertAbsoluteToRelative (absolutePath baseDir : string)
  : string :=
  default absolutePath (strip_prefix (baseDir ++ String sep "") absolutePath).

(** Modelled from the spec: [getObjFromPath] of [utils.ts].  Section 3,
    the "derived name/path fields" of ExtraSceneInfo: the last component
    of the sanitized path. *)
Definition spec_getObjFromPath (p : string) : string :=
  List.last (split sep (spec_sanitizePath p)) "".

(** Modelled from the spec: the helpers of [utils.ts] together.  Section
    4.1, "absolute path (base directory + relative value, or null
    passthrough)": handed null, [joinPath] hands it back (and undefined
    likewise, which [!= null] does not tell from null).  What the helpers
    do with other values that are not strings is [UntypedHelpers]. *)
Definition spec_Utils : Utils :=
  {| sanitizePath := spec_sanitizePath;
     joinPath := spec_joinPath;
     convertAbsoluteToRelative := spec_convertAbsoluteToRelative;
     getObjFromPath := spec_getObjFromPath;
     joinPath_nullish := fun _ v => Ok v;
     joinPath_untyped := given_joinPath_untyped;
     convertAbsoluteToRelative_untyped :=
       given_convertAbsoluteToRelative_untyped |}.

(** A path component: no slash of either kind and no separator. *)
Definition single_component (n : string) : Prop :=
  Forall (fun c => is_slash c = false /\ c <> sep) (list_ascii_of_string n).
End SpecUtils.

(** Modelled from the spec: the scene writer, which [story.ts] does not
    have (it writes story info only).  Section 3, "on-disk JSON stores asset
    and navigation paths relative to the story's base directory", and
    section 8, "for any scene navigation destination equal to the end
    sentinel or null, path resolution is a no-op in both directions": the
    destination is made relative unless it is null or the end sentinel. *)
Definition spec_unresolveDestination {RT : Runtime} {ST : Strings} {UT : Utils}
  (baseDir : string) (v : value) : result value :=
  if nullish v || loose_eq_end v then Ok v
  else s <-? convertAbsoluteToRelative_any v baseDir ;; Ok (VStr s).

(** ** [router/index.ts] *)

Module Router.
(** A route's [component]: a view imported up front, or a function that
    imports it on first use ([() => import(...)]). *)
Inductive RawRouteComponent :=
| Static (view : string)
| Lazy (view : string).

(** [props] is [None] where the record does not set it. *)
Record RouteRecordRaw := {
  path : string;
  name : string;
  component : RawRouteComponent;
  props : option bool
}.

Definition routes : list RouteRecordRaw :=
  [ {| path := "/";
       name := "Home";
       component := Lazy "../views/HomeView.vue";
       props := None |};
    {| path := "/playoptions";
       name := "PlayOptions";
       component := Lazy "../views/PlayerViews/PlayOptionsView.vue";
       props := None |};
    {| path := "/createoptions";
       name := "CreateOptions";
       component := Lazy "../views/EditorViews/CreateOptionsView.vue";
       props := None |};
    {| path := "/storyplayback/:storyInfoDir";
       name := "StoryPlayBack";
       component := Lazy "../views/PlayerViews/StoryPlaybackView.vue";
       props := Some true |};
    {| path := "/editoroverview/:storyInfoDir";
       name := "EditorOverview";
       component := Lazy "../views/EditorViews/EditorOverviewView.vue";
       props := Some true |};
    {| path := "/sceneseditor/:baseDir";
       name := "ScenesEditor";
       component := Lazy "../views/EditorViews/ScenesEditorView.vue";
       props := Some true |} ].

(** The parameters of a path pattern: its segments that start with a
    colon. *)
Definition params (pattern : string) : list string :=
  omap (fun segment =>
          match segment with
          | String ":" p => Some p
          | _ => None
          end)
       (split "/" pattern).

Definition is_lazy (c : RawRouteComponent) : bool :=
  match c with
  | Lazy _ => true
  | Static _ => false
  end.

(** With [props: true] the router hands [route.params] to the component. *)
Definition passes_params_as_props (r : RouteRecordRaw) : bool :=
  bool_decide (props r = Some true).
End Router.

(** ** The walks of [internalize] and [serialize], named *)

Fixpoint revive_elements (reviver : Reviver) (i : nat) (l : list json)
  : result (list value) :=
  match l with
  | [] => Ok []
  | x :: rest =>
      v <-? internalize reviver (index_key i) x ;;
      vs <-? revive_elements reviver (S i) rest ;;
      Ok (v :: vs)
  end.

Fixpoint revive_members (reviver : Reviver) (m : list (string * json))
  : result (list (string * value)) :=
  match m with
  | [] => Ok []
  | (k, x) :: rest =>
      v <-? internalize reviver k x ;;
      vs <-? revive_members reviver rest ;;
      Ok (match v with
          | VUndef => vs
          | _ => (k, v) :: vs
          end)
  end.

Fixpoint serialize_elements {RT : Runtime} (replacer : option Replacer) (i : nat)
  (l : list value) : result (list json) :=
  match l with
  | [] => Ok []
  | x :: rest =>
      j <-? serialize replacer (index_key i) x ;;
      js <-? serialize_elements replacer (S i) rest ;;
      Ok (default JNull j :: js)
  end.

Fixpoint serialize_members {RT : Runtime} (replacer : option Replacer)
  (m : list (string * value)) : result (list (string * json)) :=
  match m with
  | [] => Ok []
  | (k, x) :: rest =>
      j <-? serialize replacer k x ;;
      js <-? serialize_members replacer rest ;;
      Ok (match j with
          | Some j' => (k, j') :: js
          | None => js
          end)
  end.

(** What [serialize] prints once the replacer has handed the value back. *)
Definition serialize_kept {RT : Runtime} (replacer : option Replacer) (v : value)
  : result (option json) :=
  match v with
  | VUndef => Ok None
  | VNull => Ok (Some JNull)
  | VBool b => Ok (Some (JBool b))
  | VNum x => Ok (Some (if is_finite x then JNum x else JNull))
  | VStr s => Ok (Some (JStr s))
  | VDate t =>
      Ok (Some (if is_finite t then JStr (Date_toISOString t) else JNull))
  | VArr l =>
      els <-? serialize_elements replacer 0 l ;; Ok (Some (JArr els))
  | VObj m =>
      members <-? serialize_members replacer m ;; Ok (Some (JObj members))
  end.

Definition apply_replacer {RT : Runtime} (replacer : option Replacer)
  (key : string) (v : value) : result (option string) :=
  match replacer with
  | Some f => f key (toJSON v)
  | None => Ok None
  end.

(** First member of a JSON object under a key. *)
Fixpoint jget (m : list (string * json)) (key : string) : option json :=
  match m with
  | [] => None
  | (k, j) :: rest => if decide (k = key) then Some j else jget rest key
  end.

(** A story core file as the interface describes it: an object of scalars
    whose [thumbnail] and [entry_point], where present, are strings. *)
Definition story_member (kj : string * json) : Prop :=
  match kj.2 with
  | JStr _ => True
  | JNull | JBool _ | JNum _ => kj.1 <> "thumbnail" /\ kj.1 <> "entry_point"
  | JArr _ | JObj _ => False
  end.

Definition story_document (m : list (string * json)) : Prop :=
  Forall story_member m.

(** The unfiltered result of a parse as a value. *)
Fixpoint value_of_json (j : json) : value :=
  match j with
  | JNull => VNull
  | JBool b => VBool b
  | JNum x => VNum x
  | JStr s => VStr s
  | JArr l => VArr (value_of_json <$> l)
  | JObj m => VObj ((fun kj => (kj.1, value_of_json kj.2)) <$> m)
  end.

Section Expected.
Context {RT : Runtime} {ST : Strings} {UT : Utils} {TP : Templates}
  {MP : ModulePaths}.

(** What reading makes of one member of a story document. *)
Definition story_field (baseDir key : string) (v : value) : value :=
  if bool_decide (key = "creation_date") then VDate (Date_new v)
  else if bool_decide (key = "thumbnail") || bool_decide (key = "entry_point")
  then match v with
       | VStr s => VStr (joinPath baseDir s)
       | _ => v
       end
  else if bool_decide (key = "base_dir") then VStr (sanitizePath baseDir)
  else v.

Definition story_fields (baseDir : string) (m : list (string * json))
  : list (string * value) :=
  (fun kj => (kj.1, story_field baseDir kj.1 (value_of_json kj.2))) <$> m.

(** How a Date, and a number, come out of [JSON.stringify]. *)
Definition date_json (t : number) : json :=
  if is_finite t then JStr (Date_toISOString t) else JNull.

Definition number_json (x : number) : json :=
  if is_finite x then JNum x else JNull.

(** What reading a member of a story document and writing it back
    leaves in the file. *)
Definition roundtrip_field (baseDir key : string) (j : json) : json :=
  if bool_decide (key = "creation_date")
  then date_json (Date_new (value_of_json j))
  else if bool_decide (key = "thumbnail") || bool_decide (key = "entry_point")
  then match j with
       | JStr s => JStr (convertAbsoluteToRelative (joinPath baseDir s) baseDir)
       | _ => j
       end
  else if bool_decide (key = "base_dir") then JStr ""
  else match j with
       | JNum x => number_json x
       | _ => j
       end.

Definition roundtrip_fields (baseDir : string) (m : list (string * json))
  : list (string * json) :=
  (fun kj => (kj.1, roundtrip_field baseDir kj.1 kj.2)) <$> m.

(** The JSON of the typed objects, printed without a replacer. *)
Definition nullable_json (o : option string) : json :=
  match o with
  | Some s => JStr s
  | None => JNull
  end.

Definition StoryInfo_json (s : StoryInfo) : json :=
  JObj [("title", JStr (title s));
        ("description", JStr (description s));
        ("author", JStr (author s));
        ("creation_date", date_json (creation_date s));
        ("thumbnail", JStr (thumbnail s));
        ("entry_point", JStr (entry_point s));
        ("base_dir", JStr (base_dir s))].

Definition MultipleChoice_json (c : MultipleChoice) : json :=
  JObj [("action", JStr (action c)); ("destination", JStr (destination c))].

Definition SceneActions_json (a : SceneActions) : json :=
  JObj [("multiple_choice",
         match multiple_choice a with
         | Some l => JArr (MultipleChoice_json <$> l)
         | None => JNull
         end);
        ("single_choice", nullable_json (single_choice a))].

Definition SceneInfo_json (s : SceneInfo) : json :=
  JObj [("center_text", nullable_json (center_text s));
        ("narration_text", nullable_json (narration_text s));
        ("background_color", nullable_json (background_color s));
        ("media", nullable_json (media s));
        ("scene_actions", SceneActions_json (scene_actions s))].

(** The outcome of one entry in the two directory scans: the value for
    an entry that resolves, nothing for one that raises. *)
Definition resolved_story (w : World) (entry : FileEntry) : option value :=
  match resolveStoryInfo (path entry) w with
  | (Ok storyInfo, _) => Some storyInfo
  | (Throw _, _) => None
  end.

Definition resolved_scene (w : World) (entry : FileEntry)
  : option ExtraSceneInfo :=
  match resolveSceneInfo (path entry) w with
  | (Ok sceneInfo, _) =>
      Some {| base_scene_info := sceneInfo;
              scene_name := replace ".json" "" (getObjFromPath (path entry));
              scene_path := path entry |}
  | (Throw _, _) => None
  end.

(** What a destination becomes on read, for the values the interface
    allows: a string or null. *)
Definition resolved_destination (baseDir : string) (d : option string)
  : option string :=
  match d with
  | None => None
  | Some s =>
      if bool_decide (s = navigationKeywords_end) then Some s
      else Some (joinPath baseDir s)
  end.

(** A [scene_actions] object as the interfaces describe it, a destination
    being a string or null. *)
Definition choice_value (c : string * option string) : value :=
  VObj [("action", VStr c.1); ("destination", nullable c.2)].

Definition actions_value (choices : option (list (string * option string)))
  (single : option string) : value :=
  VObj [("multiple_choice",
         match choices with
         | Some l => VArr (choice_value <$> l)
         | None => VNull
         end);
        ("single_choice", nullable single)].

Definition resolved_choice (baseDir : string) (c : string * option string)
  : string * option string :=
  (c.1, resolved_destination baseDir c.2).

(** A scene file as the interfaces describe it, and the object it
    denotes. *)
Definition choice_json (c : string * option string) : json :=
  JObj [("action", JStr c.1); ("destination", nullable_json c.2)].

Definition actions_json (choices : option (list (string * option string)))
  (single : option string) : json :=
  JObj [("multiple_choice",
         match choices with
         | Some l => JArr (choice_json <$> l)
         | None => JNull
         end);
        ("single_choice", nullable_json single)].

Definition scene_json (center narration color media : option string)
  (choices : option (list (string * option string)))
  (single : option string) : json :=
  JObj [("center_text", nullable_json center);
        ("narration_text", nullable_json narration);
        ("background_color", nullable_json color);
        ("media", nullable_json media);
        ("scene_actions", actions_json choices single)].

Definition scene_value (center narration color media : option string)
  (choices : option (list (string * option string)))
  (single : option string) : value :=
  VObj [("center_text", nullable center);
        ("narration_text", nullable narration);
        ("background_color", nullable color);
        ("media", nullable media);
        ("scene_actions", actions_value choices single)].


(** An entry of a scan is well formed when its story info resolves. *)
Definition well_formed (w : World) (entry : FileEntry) : bool :=
  is_Ok (resolveStoryInfo (path entry) w).1.
End Expected.

(** ** A sample installation

    One inhabitant of each interface and one small file system, on which
    the statements below are exercised. *)

Module Sample.
Definition quote : string := String (ascii_of_nat 34) "".

(** A printer for JSON trees: strings without escapes, every number as
    [0] (no sample document holds a number). *)
Fixpoint print (j : json) : string :=
  match j with
  | JNull => "null"
  | JBool b => if b then "true" else "false"
  | JNum _ => "0"
  | JStr s => quote ++ s ++ quote
  | JArr l => "[" ++ join "," (map print l) ++ "]"
  | JObj m =>
      "{" ++ join "," (map (fun kj => quote ++ kj.1 ++ quote ++ ":" ++ print kj.2) m)
          ++ "}"
  end.

Definition story_document : list (string * json) :=
  [("title", JStr "A walk");
   ("description", JStr "Two scenes");
   ("author", JStr "anon");
   ("creation_date", JStr "2023-05-01T00:00:00.000Z");
   ("thumbnail", JStr "resources/thumbnail.png");
   ("entry_point", JStr "scenes/scene1.json");
   ("base_dir", JStr "")].

Definition scene_document : list (string * json) :=
  [("center_text", JStr "Hello");
   ("narration_text", JNull);
   ("background_color", JNull);
   ("media", JStr "resources/thumbnail.png");
   ("scene_actions",
    JObj [("multiple_choice",
           JArr [JObj [("action", JStr "Go on");
                       ("destination", JStr "scenes/scene2.json")];
                 JObj [("action", JStr "Stop");
                       ("destination", JStr "end")]]);
          ("single_choice", JNull)])].

Definition documents : list json :=
  [JObj story_document; JObj scene_document].

Definition epoch : number := Finite 1682899200000 0.

(** An engine that reads back the sample documents and knows one date. *)
Definition runtime : Runtime :=
  {| sep := "/"%char;
     JSON_parse_text := fun text =>
       List.find (fun j => bool_decide (print j = text)) documents;
     JSON_text := print;
     Date_new := fun v =>
       match v with
       | VStr s =>
           if bool_decide (s = "2023-05-01T00:00:00.000Z") then epoch else NaN
       | _ => NaN
       end;
     Date_toISOString := fun t =>
       if bool_decide (t = epoch) then "2023-05-01T00:00:00.000Z"
       else "1970-01-01T00:00:00.000Z";
     loose_eq_coerced := fun _ _ => false;
     crypto_randomUUID := fun n => "secure-" ++ index_key n;
     uuidv4 := fun n => "v4-" ++ index_key n |}.

(** Modelled from the spec: the folder names of section 6
    ([collections], [workspace], [scenes], [resources]) out of
    [strings.ts], which is not among the sources.  The specification does
    not give the file names and the end sentinel; those are samples. *)
Definition strings : Strings :=
  {| fileNames_collectionsFolder := "collections";
     fileNames_workspaceFolder := "workspace";
     fileNames_scenesFolder := "scenes";
     fileNames_resourcesFolder := "resources";
     fileNames_core := "core.json";
     fileNames_thumbnail := "thumbnail.png";
     fileNames_firstScene := "scene1.json";
     fileNames_secondScene := "scene2.json";
     navigationKeywords_end := "end" |}.

(** A sample: helpers that raise on the values the specification does not
    speak of. *)
Definition untyped : UntypedHelpers :=
  {| given_joinPath_untyped := fun _ _ => Throw TypeError;
     given_convertAbsoluteToRelative_untyped := fun _ _ => Throw TypeError |}.

Definition utils : Utils := @spec_Utils runtime untyped.

Definition templates : Templates :=
  {| templateStoryInfo := fun t d a =>
       {| title := t; description := d; author := a;
          creation_date := epoch;
          thumbnail := "resources/thumbnail.png";
          entry_point := "scenes/scene1.json";
          base_dir := "" |};
     templateSceneInfo1 :=
       {| center_text := Some "Hello"; narration_text := None;
          background_color := None; media := None;
          scene_actions :=
            {| multiple_choice := None;
               single_choice := Some "scenes/scene2.json" |} |};
     templateSceneInfo2 :=
       {| center_text := None; narration_text := Some "The end";
          background_color := Some "#000000"; media := None;
          scene_actions :=
            {| multiple_choice :=
                 Some [ {| action := "Again";
                           destination := "scenes/scene1.json" |} ];
               single_choice := None |} |};
     bookUint8Array := [Byte.x89; Byte.x50; Byte.x4e; Byte.x47] |}.

Definition paths : ModulePaths :=
  {| collectionsPath := "/data/collections";
     workspacePath := "/data/workspace" |}.

Definition good : FileEntry :=
  {| path := "/data/collections/good"; name := Some "good" |}.

Definition bad : FileEntry :=
  {| path := "/data/collections/bad"; name := Some "bad" |}.

Definition scene1 : FileEntry :=
  {| path := "/data/collections/good/scenes/scene1.json";
     name := Some "scene1.json" |}.

Definition scene_odd : FileEntry :=
  {| path := "/data/collections/good/scenes/a.json.b.json";
     name := Some "a.json.b.json" |}.

(** One story that reads, one whose core file is not JSON. *)
Definition world : World :=
  {| textFiles :=
       <["/data/collections/good/core.json" := print (JObj story_document)]>
       (<["/data/collections/bad/core.json" := "{ not json"]>
       (<["/data/collections/good/scenes/scene1.json" :=
            print (JObj scene_document)]>
       (<["/data/collections/good/scenes/a.json.b.json" :=
            print (JObj scene_document)]> ∅)));
     binaryFiles := ∅;
     directories :=
       <["/data/collections" := [good; bad]]>
       (<["/data/workspace" := []]>
       (<["/data/collections/good/scenes" := [scene1; scene_odd]]> ∅));
     isSecureContext := true;
     uuidsDrawn := 0 |}.
End Sample.

(** ** The rest of [story.ts] *)

(** [sanitizePath(path, separator)], the two-argument call of [utils.ts]
    that [sceneNameToRelativePath] makes. *)
Class SeparatorUtils := {
  sanitizePath_with : string -> string -> string
}.

(** [sceneNameToRelativePath] (lines 388-390). *)
Definition sceneNameToRelativePath {ST : Strings} {UT : Utils}
  {SU : SeparatorUtils} (sceneName : string) : string :=
  sanitizePath_with (joinPath fileNames_scenesFolder (sceneName ++ ".json")) "/".

(** Modelled from the spec: [sanitizePath] of [utils.ts] with its separator
    given (section 2, "sanitize ... filesystem paths across platform
    separators"): a slash of either kind becomes the separator. *)
Fixpoint spec_sanitizePath_with (p separator : string) : string :=
  match p with
  | EmptyString => ""
  | String c r =>
      if is_slash c then separator ++ spec_sanitizePath_with r separator
      else String c (spec_sanitizePath_with r separator)
  end.

Definition spec_SeparatorUtils : SeparatorUtils :=
  {| sanitizePath_with := spec_sanitizePath_with |}.

(** Whether a key for which [special] holds occurs in a document, at any
    depth. *)
Fixpoint mentions (special : string -> bool) (j : json) : bool :=
  match j with
  | JNull | JBool _ | JNum _ | JStr _ => false
  | JArr l =>
      (fix any (l : list json) : bool :=
         match l with
         | [] => false
         | x :: rest => mentions special x || any rest
         end) l
  | JObj m =>
      (fix any (m : list (string * json)) : bool :=
         match m with
         | [] => false
         | (k, x) :: rest => special k || mentions special x || any rest
         end) m
  end.

Fixpoint mentions_elements (special : string -> bool) (l : list json) : bool :=
  match l with
  | [] => false
  | x :: rest => mentions special x || mentions_elements special rest
  end.

Fixpoint mentions_members (special : string -> bool)
  (m : list (string * json)) : bool :=
  match m with
  | [] => false
  | (k, x) :: rest =>
      special k || mentions special x || mentions_members special rest
  end.

(** The keys the two revivers look for. *)
Definition story_key (key : string) : bool :=
  bool_decide (key = "creation_date") || bool_decide (key = "thumbnail")
  || bool_decide (key = "entry_point") || bool_decide (key = "base_dir").

Definition scene_key (key : string) : bool :=
  bool_decide (key = "media") || bool_decide (key = "scene_actions").

(** The choices of a typed scene as (action, destination) pairs. *)
Definition choice_pair (c : MultipleChoice) : string * option string :=
  (action c, Some (destination c)).

(** The number of separators in a string. *)
Fixpoint count_char (c : ascii) (s : string) : nat :=
  match s with
  | EmptyString => 0
  | String a r => (if decide (a = c) then 1 else 0) + count_char c r
  end.

(** The world after an [IO] action. *)
Definition after {A} (m : IO A) (w : World) : World := (m w).2.

(** What [typeof] calls an object, other than null. *)
Definition is_object (j : json) : bool :=
  match j with
  | JArr _ | JObj _ => true
  | _ => false
  end.

(** An object with exactly the two properties of a resolved choice. *)
Definition choice_shaped (v : value) : Prop :=
  exists a d, v = VObj [("action", a); ("destination", d)].

Section MoreExpected.
Context {RT : Runtime} {ST : Strings} {UT : Utils} {TP : Templates}
  {MP : ModulePaths}.

(** The base directory the next [createNewStory] will use. *)
Definition new_base_dir (w : World) : string :=
  joinPath workspacePath
    (if isSecureContext w then crypto_randomUUID (uuidsDrawn w)
     else uuidv4 (uuidsDrawn w)).

(** The listings after [createNewStory] has made the story at [baseDir]:
    its two directories are created, then the core file, the thumbnail and
    the two scenes are entered where they lie. *)
Definition new_story_listings (baseDir : string)
  (dirs : gmap string (list FileEntry)) : gmap string (list FileEntry) :=
  let scenesDir := joinPath baseDir fileNames_scenesFolder in
  let resourcesDir := joinPath baseDir fileNames_resourcesFolder in
  listed (joinPath scenesDir fileNames_secondScene)
    (listed (joinPath scenesDir fileNames_firstScene)
       (listed (joinPath resourcesDir fileNames_thumbnail)
          (listed (joinPath baseDir fileNames_core)
             (created_recursively resourcesDir
                (created_recursively scenesDir dirs))))).

(** The document [writeStoryInfoToDisk] prints for a StoryInfo. *)
Definition written_story (s : StoryInfo) (baseDir : string) : json :=
  JObj [("title", JStr (title s));
        ("description", JStr (description s));
        ("author", JStr (author s));
        ("creation_date", date_json (creation_date s));
        ("thumbnail", JStr (convertAbsoluteToRelative (thumbnail s) baseDir));
        ("entry_point",
         JStr (convertAbsoluteToRelative (entry_point s) baseDir));
        ("base_dir", JStr "")].

(** A typed scene as the pairs [scene_json] takes. *)
Definition scene_choices (s : SceneInfo)
  : option (list (string * option string)) :=
  fmap (M := list) choice_pair <$> multiple_choice (scene_actions s).
End MoreExpected.

(** ** A second sample installation

    The first one, with an engine that also reads back a nested document,
    a scene without scene actions and the first template scene, and with
    more files. *)

Module Fixtures.
Definition nested_document : json :=
  JObj [("meta", JObj Sample.story_document)].

Definition broken_scene : list (string * json) :=
  [("center_text", JStr "Hello"); ("scene_actions", JNull)].

Definition documents : list json :=
  (Sample.documents ++
   [nested_document; JObj broken_scene;
    SceneInfo_json (@templateSceneInfo1 Sample.templates)])%list.

Definition runtime : Runtime :=
  {| sep := @sep Sample.runtime;
     JSON_parse_text := fun text =>
       List.find (fun j => bool_decide (Sample.print j = text)) documents;
     JSON_text := Sample.print;
     Date_new := @Date_new Sample.runtime;
     Date_toISOString := @Date_toISOString Sample.runtime;
     loose_eq_coerced := @loose_eq_coerced Sample.runtime;
     crypto_randomUUID := @crypto_randomUUID Sample.runtime;
     uuidv4 := @uuidv4 Sample.runtime |}.

Definition utils : Utils := @spec_Utils runtime Sample.untyped.

Definition odd : FileEntry :=
  {| path := "/data/collections/odd"; name := Some "odd" |}.

Definition broken : FileEntry :=
  {| path := "/data/collections/good/scenes/broken.json";
     name := Some "broken.json" |}.

Definition notes : FileEntry :=
  {| path := "/data/collections/good/scenes/notes"; name := Some "notes" |}.

Definition thumbnail_entry : FileEntry :=
  {| path := "/data/collections/good/resources/thumbnail.png";
     name := Some "thumbnail.png" |}.

Definition world : World :=
  {| textFiles :=
       <["/data/collections/odd/core.json" :=
           Sample.print (JObj Sample.scene_document)]>
       (<["/data/collections/nested/core.json" :=
            Sample.print nested_document]>
       (<["/data/collections/good/scenes/story.json" :=
            Sample.print (JObj Sample.story_document)]>
       (<["/data/collections/good/scenes/broken.json" :=
            Sample.print (JObj broken_scene)]>
       (<["/data/collections/good/scenes/notes" :=
            Sample.print (JObj Sample.scene_document)]>
       (textFiles Sample.world)))));
     binaryFiles := ∅;
     directories :=
       <["/data/collections/good/resources" := [thumbnail_entry]]>
       (<["/data/collections/good/scenes" :=
            [Sample.scene1; broken; notes]]>
       (directories Sample.world));
     isSecureContext := true;
     uuidsDrawn := 0 |}.

(** A StoryInfo in memory, for the story in [/data/collections/good]. *)
Definition story : StoryInfo :=
  {| title := "A walk";
     description := "Two scenes";
     author := "anon";
     creation_date := Sample.epoch;
     thumbnail := "/data/collections/good/resources/thumbnail.png";
     entry_point := "/data/collections/good/scenes/scene1.json";
     base_dir := "/data/collections/good" |}.

(** Scene actions with more in them than the interface names. *)
Definition loose_actions : list (string * value) :=
  [("multiple_choice",
    VArr [VObj [("action", VStr "Go on");
                ("destination", VStr "scenes/scene2.json");
                ("condition", VStr "has key")]]);
   ("single_choice", VNull);
   ("note", VStr "keep")].
End Fixtures.

(** * Properties *)

(** ** The file system *)

Section FileSystem.
Context {RT : Runtime}.

Lemma grows_refl dirs : grows dirs dirs.
Proof. intros d l H. exists []. rewrite app_nil_r. exact H. Qed.

Lemma grows_trans a b c : grows a b -> grows b c -> grows a c.
Proof.
  intros Hab Hbc d l H. destruct (Hab d l H) as [m Hm].
  destruct (Hbc d _ Hm) as [m' Hm']. exists (m ++ m')%list.
  rewrite app_assoc. exact Hm'.
Qed.

Lemma grows_exists a b d : grows a b -> is_Some (a !! d) -> is_Some (b !! d).
Proof. intros Hab [l Hl]. destruct (Hab d l Hl) as [m Hm]. eauto. Qed.

(** What [listed] does to one listing: nothing, or the entry of the new
    path is put after the entries of its directory. *)
Lemma listed_lookup p dirs d :
  listed p dirs !! d = dirs !! d \/
  exists l n,
    parent_and_name p = Some (d, n) /\ dirs !! d = Some l /\
    (p ∉ (path <$> l)) /\
    listed p dirs !! d = Some (l ++ [{| path := p; name := Some n |}])%list.
Proof.
  unfold listed.
  destruct (parent_and_name p) as [[d' n]|] eqn:Hp; [|left; reflexivity].
  destruct (dirs !! d') as [l|] eqn:Hd; [|left; reflexivity].
  case_bool_decide; [left; reflexivity|].
  destruct (decide (d = d')) as [->|Hne].
  - right. exists l, n. rewrite lookup_insert_eq. auto.
  - left. apply lookup_insert_ne. congruence.
Qed.

Lemma listed_grows p dirs : grows dirs (listed p dirs).
Proof.
  intros d l H.
  destruct (listed_lookup p dirs d) as [Heq|(l' & n & _ & Hl & _ & Heq)].
  - exists []. rewrite app_nil_r, Heq. exact H.
  - rewrite H in Hl. injection Hl as <-. eexists. exact Heq.
Qed.

Lemma listed_dom p dirs d :
  is_Some (listed p dirs !! d) <-> is_Some (dirs !! d).
Proof.
  destruct (listed_lookup p dirs d) as [Heq|(l & n & _ & Hl & _ & Heq)].
  - rewrite Heq. reflexivity.
  - rewrite Hl, Heq. split; eauto.
Qed.

(** Once written or created, a path is in the listing of its directory,
    if the world lists that directory. *)
Lemma listed_entered p dirs d n :
  parent_and_name p = Some (d, n) -> is_Some (dirs !! d) ->
  entered (listed p dirs) d p.
Proof.
  intros Hp [l Hl]. unfold entered, listed. rewrite Hp, Hl. case_bool_decide.
  - exists l. split; assumption.
  - eexists. rewrite lookup_insert_eq. split; [reflexivity|].
    rewrite fmap_app. apply elem_of_app. right. simpl. apply elem_of_cons.
    left. reflexivity.
Qed.

Lemma with_new_directory_grows p dirs : grows dirs (with_new_directory p dirs).
Proof.
  unfold with_new_directory. destruct (dirs !! p) eqn:Hp.
  - apply listed_grows.
  - eapply grows_trans; [|apply listed_grows].
    intros d l H. exists []. rewrite app_nil_r.
    rewrite lookup_insert_ne; [exact H|]. intros ->. congruence.
Qed.

Lemma with_new_directory_exists p dirs :
  is_Some (with_new_directory p dirs !! p).
Proof.
  unfold with_new_directory. apply listed_dom.
  destruct (dirs !! p) eqn:Hp; [rewrite Hp|rewrite lookup_insert_eq]; eauto.
Qed.

Lemma with_new_directory_entered p dirs d n :
  parent_and_name p = Some (d, n) -> is_Some (dirs !! d) ->
  entered (with_new_directory p dirs) d p.
Proof.
  intros Hp Hd. unfold with_new_directory. apply (listed_entered _ _ _ n Hp).
  destruct (dirs !! p) eqn:E; [exact Hd|].
  destruct (decide (d = p)) as [->|Hne]; [rewrite lookup_insert_eq; eauto|].
  rewrite lookup_insert_ne by congruence. exact Hd.
Qed.

Lemma entered_grows a b d p : grows a b -> entered a d p -> entered b d p.
Proof.
  intros Hab (l & Hl & Hp). destruct (Hab d l Hl) as [more Hm].
  exists (l ++ more)%list. split; [exact Hm|].
  rewrite fmap_app. apply elem_of_app. left. exact Hp.
Qed.

Lemma entered_exists dirs d p : entered dirs d p -> is_Some (dirs !! d).
Proof. intros (l & Hl & _). eauto. Qed.

Lemma entered_lists w d p : entered (directories w) d p -> lists w d p.
Proof.
  intros (l & Hl & Hp). exists l. unfold readDir. rewrite Hl. auto.
Qed.

Lemma with_new_directory_dom p dirs d :
  is_Some (with_new_directory p dirs !! d) -> is_Some (dirs !! d) \/ d = p.
Proof.
  unfold with_new_directory. rewrite listed_dom.
  destruct (dirs !! p) eqn:Hp; [left; assumption|].
  destruct (decide (d = p)) as [->|Hne]; [right; reflexivity|].
  rewrite lookup_insert_ne by congruence. left. assumption.
Qed.

Lemma ancestors_created_grows l dirs :
  grows dirs (foldl (fun ds d => with_new_directory d ds) dirs l).
Proof.
  revert dirs. induction l as [|a l IH]; intros dirs; simpl.
  - apply grows_refl.
  - eapply grows_trans; [apply with_new_directory_grows|apply IH].
Qed.

Lemma ancestors_created_exist l dirs d :
  d ∈ l -> is_Some (foldl (fun ds d => with_new_directory d ds) dirs l !! d).
Proof.
  revert dirs. induction l as [|a l IH]; intros dirs Hd; simpl.
  - inversion Hd.
  - apply elem_of_cons in Hd as [->|Hd]; [|apply IH, Hd].
    eapply grows_exists; [apply ancestors_created_grows|].
    apply with_new_directory_exists.
Qed.

Lemma ancestors_created_dom l dirs d :
  is_Some (foldl (fun ds d => with_new_directory d ds) dirs l !! d) ->
  is_Some (dirs !! d) \/ d ∈ l.
Proof.
  revert dirs. induction l as [|a l IH]; intros dirs Hd; simpl in Hd.
  - left. exact Hd.
  - destruct (IH _ Hd) as [H|H].
    + destruct (with_new_directory_dom _ _ _ H) as [H'| ->].
      * left. exact H'.
      * right. apply elem_of_cons. left. reflexivity.
    + right. apply elem_of_cons. right. exact H.
Qed.

(** [createDir] with [recursive: true]: the directory exists afterwards,
    and so does every directory above it; what was listed before still
    is; no other directory appears. *)
Lemma created_recursively_exists p dirs :
  is_Some (created_recursively p dirs !! p).
Proof. apply with_new_directory_exists. Qed.

Lemma created_recursively_ancestors p dirs d :
  d ∈ ancestors p -> is_Some (created_recursively p dirs !! d).
Proof.
  intros Hd. eapply grows_exists; [apply with_new_directory_grows|].
  apply ancestors_created_exist, Hd.
Qed.

Lemma created_recursively_grows p dirs :
  grows dirs (created_recursively p dirs).
Proof.
  eapply grows_trans; [apply ancestors_created_grows|].
  apply with_new_directory_grows.
Qed.

Lemma created_recursively_dom p dirs d :
  is_Some (created_recursively p dirs !! d) ->
  is_Some (dirs !! d) \/ d = p \/ d ∈ ancestors p.
Proof.
  intros Hd. destruct (with_new_directory_dom _ _ _ Hd) as [H| ->]; [|auto].
  destruct (ancestors_created_dom _ _ _ H); auto.
Qed.
End FileSystem.

(** ** The walks of [JSON.parse] and [JSON.stringify] *)

Lemma internalize_JArr reviver key l :
  internalize reviver key (JArr l) =
  (els <-? revive_elements reviver 0 l ;; reviver key (VArr els)).
Proof.
  simpl. f_equal. generalize 0. induction l as [|x rest IH]; intros i.
  - reflexivity.
  - simpl. destruct (internalize reviver (index_key i) x); simpl; [|reflexivity].
    rewrite IH. reflexivity.
Qed.

Lemma internalize_JObj reviver key m :
  internalize reviver key (JObj m) =
  (members <-? revive_members reviver m ;; reviver key (VObj members)).
Proof.
  simpl. f_equal. induction m as [|[k x] rest IH].
  - reflexivity.
  - simpl. destruct (internalize reviver k x); simpl; [|reflexivity].
    rewrite IH. reflexivity.
Qed.

Section Walks.
Context {RT : Runtime}.

Lemma serialize_unfold replacer key v :
  serialize replacer key v =
  (r <-? apply_replacer replacer key v ;;
   match r with
   | Some s => Ok (Some (JStr s))
   | None => serialize_kept replacer v
   end).
Proof.
  unfold apply_replacer.
  destruct v; simpl;
    destruct (match replacer with Some f => _ | None => _ end) as [[r|]|];
    simpl; try reflexivity.
  - f_equal. generalize 0. induction l as [|x rest IH]; intros i.
    + reflexivity.
    + simpl. destruct (serialize replacer (index_key i) x); simpl;
        [|reflexivity].
      rewrite IH. reflexivity.
  - f_equal. induction m as [|[k x] rest IH].
    + reflexivity.
    + simpl. destruct (serialize replacer k x); simpl; [|reflexivity].
      rewrite IH. reflexivity.
Qed.
End Walks.

(** ** Reading and writing story info *)

Section StoryProperties.
Context {RT : Runtime} {ST : Strings} {UT : Utils} {TP : Templates}
  {MP : ModulePaths}.

Lemma story_reviver_member baseDir k j :
  story_member (k, j) ->
  internalize (resolveStoryInfo_reviver baseDir) k j =
    Ok (story_field baseDir k (value_of_json j)) /\
  story_field baseDir k (value_of_json j) <> VUndef.
Proof.
  unfold story_member, story_field, resolveStoryInfo_reviver. simpl.
  destruct j; intros Hm; try contradiction; simpl;
    repeat case_bool_decide; simpl; try (destruct Hm; congruence);
    split; congruence.
Qed.

Lemma story_revive_members baseDir m :
  story_document m ->
  revive_members (resolveStoryInfo_reviver baseDir) m =
    Ok (story_fields baseDir m).
Proof.
  induction 1 as [|[k j] m Hkj _ IH]; [reflexivity|].
  destruct (story_reviver_member baseDir k j Hkj) as [Hi Hnu].
  simpl. rewrite Hi. simpl. rewrite IH. simpl.
  destruct (story_field baseDir k (value_of_json j)); congruence.
Qed.

(** Reading a story document succeeds, leaves the world as it is, and
    rewrites the members one by one. *)
Lemma resolveStoryInfo_document baseDir w text m :
  textFiles w !! joinPath baseDir fileNames_core = Some text ->
  JSON_parse_text text = Some (JObj m) ->
  story_document m ->
  resolveStoryInfo baseDir w = (Ok (VObj (story_fields baseDir m)), w).
Proof.
  intros Hfile Hparse Hdoc.
  unfold resolveStoryInfo, io_bind, readTextFile, io_lift, JSON_parse.
  rewrite Hfile, Hparse, internalize_JObj.
  rewrite (story_revive_members baseDir m Hdoc). reflexivity.
Qed.

Lemma get_story_fields baseDir m key j :
  jget m key = Some j ->
  get (story_fields baseDir m) key = story_field baseDir key (value_of_json j).
Proof.
  induction m as [|[k x] rest IH]; simpl; [discriminate|].
  destruct (decide (k = key)) as [->|]; [intros [= ->]; reflexivity | exact IH].
Qed.

(** Reading never changes the file system. *)
Lemma resolveStoryInfo_world baseDir w :
  (resolveStoryInfo baseDir w).2 = w.
Proof.
  unfold resolveStoryInfo, io_bind, readTextFile, io_lift.
  destruct (textFiles w !! joinPath baseDir fileNames_core); reflexivity.
Qed.

Lemma resolveSceneInfo_world scenePath w :
  (resolveSceneInfo scenePath w).2 = w.
Proof.
  unfold resolveSceneInfo, io_bind, readTextFile, io_lift.
  destruct (textFiles w !! scenePath); reflexivity.
Qed.

(** C6.  For a story core file (an object of scalars, see
    [story_document]) [resolveStoryInfo] returns an object whose
    [creation_date] is the Date built from the stored value and whose
    [base_dir] is the sanitized base directory argument, whatever the file
    stored under [base_dir]. *)
Theorem resolveStoryInfo_creation_date_base_dir baseDir w text m :
  textFiles w !! joinPath baseDir fileNames_core = Some text ->
  JSON_parse_text text = Some (JObj m) ->
  story_document m ->
  exists info,
    resolveStoryInfo baseDir w = (Ok (VObj info), w) /\
    (forall j, jget m "creation_date" = Some j ->
               get info "creation_date" = VDate (Date_new (value_of_json j))) /\
    (forall j, jget m "base_dir" = Some j ->
               get info "base_dir" = VStr (sanitizePath baseDir)).
Proof.
  intros Hfile Hparse Hdoc. exists (story_fields baseDir m).
  split; [exact (resolveStoryInfo_document baseDir w text m Hfile Hparse Hdoc)|].
  split; intros j Hj; rewrite (get_story_fields baseDir m _ j Hj); reflexivity.
Qed.

(** C5.  [writeStoryInfoToDisk] on a StoryInfo succeeds and puts, at the
    core file of the base directory and nowhere else, the JSON object in
    which [thumbnail] and [entry_point] are made relative to the base
    directory, [base_dir] is the empty string, and the other members are
    printed as they are (the Date through its [toJSON]).  No binary file
    changes, and no directory listing does, except that the core file is
    entered, last, in the listing of its directory. *)
Theorem writeStoryInfoToDisk_StoryInfo (s : StoryInfo) baseDir w :
  exists w',
    writeStoryInfoToDisk (StoryInfo_value s) baseDir w = (Ok tt, w') /\
    textFiles w' !! joinPath baseDir fileNames_core =
      Some (JSON_text
              (JObj [("title", JStr (title s));
                     ("description", JStr (description s));
                     ("author", JStr (author s));
                     ("creation_date", date_json (creation_date s));
                     ("thumbnail",
                      JStr (convertAbsoluteToRelative (thumbnail s) baseDir));
                     ("entry_point",
                      JStr (convertAbsoluteToRelative (entry_point s) baseDir));
                     ("base_dir", JStr "")])) /\
    (forall p, p <> joinPath baseDir fileNames_core ->
               textFiles w' !! p = textFiles w !! p) /\
    binaryFiles w' = binaryFiles w /\
    (forall d,
       directories w' !! d = directories w !! d \/
       exists l n,
         directories w !! d = Some l /\
         directories w' !! d =
           Some (l ++ [{| path := joinPath baseDir fileNames_core;
                          name := Some n |}])%list).
Proof.
  eexists. split; [reflexivity|]. simpl. split; [apply lookup_insert_eq|].
  split; [|split; [reflexivity|]].
  - intros p Hp. apply lookup_insert_ne. congruence.
  - intros d.
    destruct (listed_lookup (joinPath baseDir fileNames_core)
                (directories w) d) as [H|(l & n & _ & Hl & _ & H)];
      [left|right; exists l, n]; auto.
Qed.
End StoryProperties.

(** ** Reading story info and writing it back *)

Section RoundTrip.
Context {RT : Runtime} {ST : Strings} {UT : Utils} {TP : Templates}
  {MP : ModulePaths}.

Lemma story_member_written baseDir k j :
  story_member (k, j) ->
  serialize (Some (writeStoryInfoToDisk_replacer baseDir)) k
    (story_field baseDir k (value_of_json j)) =
  Ok (Some (roundtrip_field baseDir k j)).
Proof.
  unfold story_member, story_field, roundtrip_field, date_json, number_json.
  simpl. intros Hm. rewrite serialize_unfold.
  unfold apply_replacer, writeStoryInfoToDisk_replacer.
  repeat case_bool_decide; simpl; subst; try congruence;
    destruct j; simpl in *; try contradiction;
    try (destruct Hm; congruence);
    repeat case_bool_decide; simpl; try congruence;
    try reflexivity;
    destruct (is_finite _); reflexivity.
Qed.

Lemma story_members_written baseDir m :
  story_document m ->
  serialize_members (Some (writeStoryInfoToDisk_replacer baseDir))
    (story_fields baseDir m) =
  Ok (roundtrip_fields baseDir m).
Proof.
  induction 1 as [|[k j] m Hkj _ IH]; [reflexivity|].
  simpl. rewrite (story_member_written baseDir k j Hkj). simpl.
  rewrite IH. reflexivity.
Qed.

(** Reading a story document and writing the result back puts, member by
    member, [roundtrip_field] of the stored value into the core file. *)
Lemma resolve_then_write baseDir w text m :
  textFiles w !! joinPath baseDir fileNames_core = Some text ->
  JSON_parse_text text = Some (JObj m) ->
  story_document m ->
  exists info w',
    resolveStoryInfo baseDir w = (Ok info, w) /\
    writeStoryInfoToDisk info baseDir w = (Ok tt, w') /\
    textFiles w' =
      <[joinPath baseDir fileNames_core :=
          JSON_text (JObj (roundtrip_fields baseDir m))]> (textFiles w).
Proof.
  intros Hfile Hparse Hdoc.
  eexists _, _. split; [|split].
  - exact (resolveStoryInfo_document baseDir w text m Hfile Hparse Hdoc).
  - unfold writeStoryInfoToDisk, io_bind, io_lift, JSON_stringify,
      JSON_stringify_tree.
    rewrite serialize_unfold. simpl.
    rewrite (story_members_written baseDir m Hdoc). simpl. reflexivity.
  - reflexivity.
Qed.

Lemma jget_roundtrip_fields baseDir m key j :
  jget m key = Some j ->
  jget (roundtrip_fields baseDir m) key = Some (roundtrip_field baseDir key j).
Proof.
  induction m as [|[k x] rest IH]; simpl; [discriminate|].
  destruct (decide (k = key)) as [->|]; [intros [= ->]; reflexivity | exact IH].
Qed.
End RoundTrip.

(** ** The path helpers of the specification *)

Lemma string_app_nil (s : string) : "" ++ s = s.
Proof. reflexivity. Qed.

Lemma string_app_cons (c : ascii) (a b : string) :
  String c a ++ b = String c (a ++ b).
Proof. reflexivity. Qed.

Lemma string_app_assoc (a b c : string) : (a ++ b) ++ c = a ++ (b ++ c).
Proof.
  induction a as [|x a IH]; [reflexivity|].
  rewrite !string_app_cons, IH. reflexivity.
Qed.

Lemma strip_prefix_app p s : strip_prefix p (p ++ s) = Some s.
Proof.
  induction p as [|a p IH]; [reflexivity|].
  rewrite string_app_cons. simpl.
  destruct (decide (a = a)); [exact IH | congruence].
Qed.

Section SpecUtilsProperties.
Context {RT : Runtime} {UH : UntypedHelpers} {ST : Strings} {TP : Templates}
  {MP : ModulePaths}.
#[local] Existing Instance spec_Utils.

(** The two conversions of the specification undo each other. *)
Lemma spec_convert_join baseDir relative :
  convertAbsoluteToRelative (joinPath baseDir relative) baseDir = relative.
Proof.
  simpl. unfold spec_convertAbsoluteToRelative, spec_joinPath.
  replace (baseDir ++ String sep relative)
    with ((baseDir ++ String sep "") ++ relative)
    by (rewrite string_app_assoc; reflexivity).
  rewrite strip_prefix_app. reflexivity.
Qed.

(** C1.  With the path helpers of the specification: when the core file
    of [baseDir] is a story document with a string [thumbnail], a string
    [entry_point] and an empty [base_dir], reading it with
    [resolveStoryInfo] and writing the result with [writeStoryInfoToDisk]
    both succeed and leave in the core file a JSON object with the same
    [thumbnail], the same [entry_point] and an empty [base_dir]. *)
Theorem resolve_then_write_roundtrip baseDir w text m thumb entry :
  textFiles w !! joinPath baseDir fileNames_core = Some text ->
  JSON_parse_text text = Some (JObj m) ->
  story_document m ->
  jget m "thumbnail" = Some (JStr thumb) ->
  jget m "entry_point" = Some (JStr entry) ->
  jget m "base_dir" = Some (JStr "") ->
  exists info w' out,
    resolveStoryInfo baseDir w = (Ok info, w) /\
    writeStoryInfoToDisk info baseDir w = (Ok tt, w') /\
    textFiles w' !! joinPath baseDir fileNames_core
      = Some (JSON_text (JObj out)) /\
    jget out "thumbnail" = Some (JStr thumb) /\
    jget out "entry_point" = Some (JStr entry) /\
    jget out "base_dir" = Some (JStr "").
Proof.
  intros Hfile Hparse Hdoc Ht He Hb.
  destruct (resolve_then_write baseDir w text m Hfile Hparse Hdoc)
    as (info & w' & Hr & Hw & Hfiles).
  exists info, w', (roundtrip_fields baseDir m).
  split; [exact Hr|]. split; [exact Hw|]. split.
  - rewrite Hfiles. apply lookup_insert_eq.
  - rewrite (jget_roundtrip_fields baseDir m _ _ Ht).
    rewrite (jget_roundtrip_fields baseDir m _ _ He).
    rewrite (jget_roundtrip_fields baseDir m _ _ Hb).
    unfold roundtrip_field. rewrite !spec_convert_join.
    repeat split; reflexivity.
Qed.
End SpecUtilsProperties.

(** ** Scene navigation destinations *)

Section Destinations.
Context {RT : Runtime} {ST : Strings} {UT : Utils} {TP : Templates}
  {MP : ModulePaths}.

Lemma resolveDestination_nullable baseDir d :
  resolveDestination baseDir (nullable d) =
  Ok (nullable (resolved_destination baseDir d)).
Proof.
  destruct d as [s|]; [|reflexivity].
  unfold resolveDestination, resolved_destination. simpl.
  case_bool_decide; reflexivity.
Qed.

Lemma resolveMultipleChoice_choice baseDir c :
  resolveMultipleChoice baseDir (choice_value c) =
  Ok (choice_value (resolved_choice baseDir c)).
Proof.
  destruct c as [a d]. unfold resolveMultipleChoice, choice_value. simpl.
  change (get _ "destination") with (nullable d).
  rewrite resolveDestination_nullable. reflexivity.
Qed.

Lemma mapM_resolveMultipleChoice baseDir l :
  mapM (resolveMultipleChoice baseDir) (choice_value <$> l) =
  Ok (choice_value <$> (resolved_choice baseDir <$> l)).
Proof.
  induction l as [|c l IH]; [reflexivity|].
  rewrite !fmap_cons.
  change (mapM ?f (?x :: ?r)) with (y <-? f x ;; ys <-? mapM f r ;; Ok (y :: ys)).
  rewrite resolveMultipleChoice_choice, IH. reflexivity.
Qed.

(** Reading a [scene_actions] object resolves the destination of every
    choice and the single choice, and nothing else. *)
Lemma resolveSceneActions_actions baseDir choices single :
  resolveSceneActions (actions_value choices single) baseDir =
  Ok (actions_value (fmap (M := list) (resolved_choice baseDir) <$> choices)
        (resolved_destination baseDir single)).
Proof.
  unfold resolveSceneActions, actions_value.
  destruct choices as [l|]; simpl.
  - rewrite mapM_resolveMultipleChoice. simpl.
    change (get _ "single_choice") with (nullable single).
    rewrite resolveDestination_nullable. reflexivity.
  - change (get _ "single_choice") with (nullable single).
    rewrite resolveDestination_nullable. reflexivity.
Qed.

End Destinations.

(** ** Reading a scene file *)

Lemma index_key_not_name i :
  index_key i <> "media" /\ index_key i <> "scene_actions".
Proof.
  unfold index_key. destruct (Nat.to_uint i); simpl; split; discriminate.
Qed.

Lemma internalize_nullable reviver key o :
  internalize reviver key (nullable_json o) = reviver key (nullable o).
Proof. destruct o; reflexivity. Qed.

Section SceneDocument.
Context {RT : Runtime} {ST : Strings} {UT : Utils} {TP : Templates}
  {MP : ModulePaths}.

Lemma scene_reviver_plain baseDir key v :
  key <> "media" -> key <> "scene_actions" ->
  resolveSceneInfo_reviver baseDir key v = Ok v.
Proof.
  intros Hm Ha. unfold resolveSceneInfo_reviver.
  rewrite !bool_decide_eq_false_2 by assumption. reflexivity.
Qed.

Lemma scene_reviver_media baseDir o :
  resolveSceneInfo_reviver baseDir "media" (nullable o) =
  Ok (nullable (joinPath baseDir <$> o)).
Proof. destruct o; reflexivity. Qed.

Lemma internalize_choice baseDir i c :
  internalize (resolveSceneInfo_reviver baseDir) (index_key i) (choice_json c)
  = Ok (choice_value c).
Proof.
  destruct (index_key_not_name i) as [Hm Ha].
  unfold choice_json. rewrite internalize_JObj.
  cbn [revive_members]. rewrite internalize_nullable.
  rewrite (scene_reviver_plain baseDir "destination") by discriminate.
  cbn [internalize].
  rewrite (scene_reviver_plain baseDir "action") by discriminate.
  cbn [result_bind].
  rewrite (scene_reviver_plain baseDir (index_key i)) by assumption.
  destruct c as [a [d|]]; reflexivity.
Qed.

Lemma revive_choices baseDir i l :
  revive_elements (resolveSceneInfo_reviver baseDir) i (choice_json <$> l)
  = Ok (choice_value <$> l).
Proof.
  revert i. induction l as [|c l IH]; intros i; [reflexivity|].
  rewrite !fmap_cons. cbn [revive_elements].
  rewrite internalize_choice, IH. reflexivity.
Qed.

Lemma internalize_actions baseDir choices single :
  internalize (resolveSceneInfo_reviver baseDir) "scene_actions"
    (actions_json choices single) =
  Ok (actions_value
        (fmap (M := list) (resolved_choice baseDir) <$> choices)
        (resolved_destination baseDir single)).
Proof.
  rewrite <- resolveSceneActions_actions.
  unfold actions_json. rewrite internalize_JObj.
  cbn [revive_members]. rewrite internalize_nullable.
  rewrite (scene_reviver_plain baseDir "single_choice") by discriminate.
  destruct choices as [l|].
  - rewrite internalize_JArr, revive_choices.
    cbn [result_bind].
    rewrite (scene_reviver_plain baseDir "multiple_choice") by discriminate.
    destruct single; reflexivity.
  - destruct single; reflexivity.
Qed.

(** Parsing a scene file of the shape the interfaces describe: the media
    and every destination are resolved against the base directory, once,
    and the rest is as stored. *)
Lemma internalize_scene baseDir center narration color media choices single :
  internalize (resolveSceneInfo_reviver baseDir) ""
    (scene_json center narration color media choices single) =
  Ok (scene_value center narration color (joinPath baseDir <$> media)
        (fmap (M := list) (resolved_choice baseDir) <$> choices)
        (resolved_destination baseDir single)).
Proof.
  unfold scene_json. rewrite internalize_JObj.
  cbn [revive_members]. rewrite internalize_actions, !internalize_nullable.
  rewrite scene_reviver_media.
  rewrite !scene_reviver_plain by discriminate.
  destruct center, narration, color, media; reflexivity.
Qed.

Lemma resolveSceneInfo_document scenePath w text
    center narration color media choices single :
  textFiles w !! scenePath = Some text ->
  JSON_parse_text text =
    Some (scene_json center narration color media choices single) ->
  let baseDir := resolveBaseDirFromScenePath scenePath in
  resolveSceneInfo scenePath w =
  (Ok (scene_value center narration color (joinPath baseDir <$> media)
         (fmap (M := list) (resolved_choice baseDir) <$> choices)
         (resolved_destination baseDir single)), w).
Proof.
  intros Hfile Hparse baseDir.
  unfold resolveSceneInfo, io_bind, readTextFile, io_lift, JSON_parse.
  rewrite Hfile, Hparse. fold baseDir. rewrite internalize_scene.
  reflexivity.
Qed.

(** C3.  A destination that is null or the end sentinel is left as it is
    by the resolution on read ([resolveSceneActions]) and by the
    resolution on write (the scene writer of the specification; the one
    replacer [story.ts] has hands back every value under [single_choice]
    and [destination]); every other string destination is, on read,
    replaced by the base directory joined with it.  This holds for the single choice and for every entry
    of the multiple choices of a [scene_actions] object, also when the
    object is met while a whole scene file is parsed. *)
Theorem destination_resolution baseDir :
  resolveDestination baseDir VNull = Ok VNull /\
  resolveDestination baseDir (VStr navigationKeywords_end)
    = Ok (VStr navigationKeywords_end) /\
  spec_unresolveDestination baseDir VNull = Ok VNull /\
  spec_unresolveDestination baseDir (VStr navigationKeywords_end)
    = Ok (VStr navigationKeywords_end) /\
  (forall v, writeStoryInfoToDisk_replacer baseDir "single_choice" v = Ok None) /\
  (forall v, writeStoryInfoToDisk_replacer baseDir "destination" v = Ok None) /\
  (forall s,
     resolveDestination baseDir (VStr s) =
     Ok (VStr (if bool_decide (s = navigationKeywords_end) then s
               else joinPath baseDir s))) /\
  (forall choices single,
     resolveSceneActions (actions_value choices single) baseDir =
     Ok (actions_value
           (fmap (M := list) (resolved_choice baseDir) <$> choices)
           (resolved_destination baseDir single))) /\
  (forall center narration color media choices single,
     internalize (resolveSceneInfo_reviver baseDir) ""
       (scene_json center narration color media choices single) =
     Ok (scene_value center narration color (joinPath baseDir <$> media)
           (fmap (M := list) (resolved_choice baseDir) <$> choices)
           (resolved_destination baseDir single))) /\
  resolved_destination baseDir None = None /\
  resolved_destination baseDir (Some navigationKeywords_end)
    = Some navigationKeywords_end /\
  (forall s,
     resolved_destination baseDir (Some s) =
     Some (if bool_decide (s = navigationKeywords_end) then s
           else joinPath baseDir s)).
Proof.
  unfold resolveDestination, spec_unresolveDestination, resolved_destination.
  simpl. rewrite !bool_decide_eq_true_2 by reflexivity. simpl.
  repeat split; try reflexivity.
  - intros s. case_bool_decide; reflexivity.
  - apply resolveSceneActions_actions.
  - apply internalize_scene.
  - intros s. case_bool_decide; reflexivity.
Qed.
End SceneDocument.

(** ** Scanning a collection *)

Section Scan.
Context {RT : Runtime} {ST : Strings} {UT : Utils} {TP : Templates}
  {MP : ModulePaths}.

Lemma resolveStories_step_eq w storyInfos entry :
  resolveStories_step storyInfos entry w =
  (Ok (storyInfos ++ option_list (resolved_story w entry))%list, w).
Proof.
  unfold resolveStories_step, try_catch, io_bind, io_ret, resolved_story.
  pose proof (resolveStoryInfo_world (path entry) w) as Hw.
  destruct (resolveStoryInfo (path entry) w) as [[v|e] w1]; simpl in *; subst.
  - reflexivity.
  - rewrite app_nil_r. reflexivity.
Qed.

Lemma resolveStories_loop_eq w entries storyInfos :
  resolveStories_loop entries storyInfos w =
  (Ok (storyInfos ++ omap (resolved_story w) entries)%list, w).
Proof.
  revert storyInfos. induction entries as [|entry rest IH]; intros storyInfos.
  - simpl. unfold io_ret. rewrite app_nil_r. reflexivity.
  - simpl. unfold io_bind. rewrite resolveStories_step_eq, IH.
    rewrite <- app_assoc. f_equal. f_equal. f_equal.
    destruct (resolved_story w entry); reflexivity.
Qed.

Lemma well_formed_resolved w entry :
  well_formed w entry =
  match resolved_story w entry with
  | Some _ => true
  | None => false
  end.
Proof.
  unfold well_formed, resolved_story.
  destruct (resolveStoryInfo (path entry) w) as [[v|e] w1]; reflexivity.
Qed.

Lemma length_omap_resolved w entries :
  length (omap (resolved_story w) entries) =
  length (filter (fun e => well_formed w e = true) entries).
Proof.
  induction entries as [|entry rest IH]; [reflexivity|].
  rewrite filter_cons. simpl.
  case_decide as Hwf; rewrite well_formed_resolved in Hwf;
    destruct (resolved_story w entry); try discriminate; try congruence.
  - simpl. f_equal. exact IH.
  - exact IH.
Qed.

(** C4.  When the scanned directory lists [entries],
    [resolveStoriesFromFS] does not raise and returns, in order, the story
    info of exactly the entries that resolve; an entry whose core file
    cannot be read or parsed is left out.  So the result has as many
    elements as there are well-formed entries: one for a directory with
    one well-formed and one malformed entry. *)
Theorem resolveStoriesFromFS_skips_failures location w entries :
  directories w !! match location with
                   | Collections => collectionsPath
                   | Workspace => workspacePath
                   end = Some entries ->
  resolveStoriesFromFS location w =
    (Ok (omap (resolved_story w) entries), w) /\
  length (omap (resolved_story w) entries) =
    length (filter (fun e => well_formed w e = true) entries) /\
  (forall good bad storyInfo,
     entries = [good; bad] \/ entries = [bad; good] ->
     resolved_story w good = Some storyInfo ->
     resolved_story w bad = None ->
     resolveStoriesFromFS location w = (Ok [storyInfo], w)).
Proof.
  intros Hdir.
  assert (resolveStoriesFromFS location w =
          (Ok (omap (resolved_story w) entries), w)) as Hscan.
  { unfold resolveStoriesFromFS, io_bind, readDir.
    destruct location; rewrite Hdir;
      (case_bool_decide as Hlen;
       [destruct entries; [reflexivity | simpl in Hlen; lia]
       | apply resolveStories_loop_eq]). }
  split; [exact Hscan|]. split; [apply length_omap_resolved|].
  intros good bad storyInfo Hentries Hgood Hbad. rewrite Hscan.
  destruct Hentries as [-> | ->]; simpl; rewrite Hgood, Hbad; reflexivity.
Qed.
End Scan.

(** ** Listing the scenes of a story *)

Lemma replace_unfold pat rep s :
  replace pat rep s =
  if String.prefix pat s then rep ++ string_drop (String.length pat) s
  else match s with
       | EmptyString => ""
       | String c r => String c (replace pat rep r)
       end.
Proof. destruct s; reflexivity. Qed.

Lemma prefix_app p s : String.prefix p (p ++ s) = true.
Proof.
  induction p as [|a p IH]; [destruct s; reflexivity|].
  rewrite string_app_cons. simpl.
  destruct (ascii_dec a a); [exact IH | congruence].
Qed.

Lemma string_drop_app p s : string_drop (String.length p) (p ++ s) = s.
Proof.
  induction p as [|a p IH]; [reflexivity|].
  rewrite string_app_cons. exact IH.
Qed.

(** [replace] rewrites the first occurrence of the pattern and nothing
    after it. *)
Lemma replace_first_occurrence pat rep pre post :
  (forall n, n < String.length pre ->
             String.prefix pat (string_drop n (pre ++ pat ++ post)) = false) ->
  replace pat rep (pre ++ pat ++ post) = pre ++ rep ++ post.
Proof.
  induction pre as [|c pre IH]; intros Hfirst.
  - rewrite !string_app_nil, replace_unfold, prefix_app, string_drop_app.
    reflexivity.
  - rewrite !string_app_cons, replace_unfold.
    pose proof (Hfirst 0 ltac:(simpl; lia)) as H0.
    rewrite string_app_cons in H0.
    change (string_drop 0 ?x) with x in H0. rewrite H0.
    f_equal. apply IH. intros n Hn.
    apply (Hfirst (S n)). simpl. lia.
Qed.

Section Scenes.
Context {RT : Runtime} {ST : Strings} {UT : Utils} {TP : Templates}
  {MP : ModulePaths}.

Lemma resolveScenes_step_eq w sceneInfos entry :
  resolveScenes_step sceneInfos entry w =
  (Ok (sceneInfos ++ option_list (resolved_scene w entry))%list, w).
Proof.
  unfold resolveScenes_step, try_catch, io_bind, io_ret, resolved_scene.
  pose proof (resolveSceneInfo_world (path entry) w) as Hw.
  destruct (resolveSceneInfo (path entry) w) as [[v|e] w1]; simpl in *; subst.
  - reflexivity.
  - rewrite app_nil_r. reflexivity.
Qed.

Lemma resolveScenes_loop_eq w entries sceneInfos :
  resolveScenes_loop entries sceneInfos w =
  (Ok (sceneInfos ++ omap (resolved_scene w) entries)%list, w).
Proof.
  revert sceneInfos. induction entries as [|entry rest IH]; intros sceneInfos.
  - simpl. unfold io_ret. rewrite app_nil_r. reflexivity.
  - simpl. unfold io_bind. rewrite resolveScenes_step_eq, IH.
    rewrite <- app_assoc. f_equal. f_equal. f_equal.
    destruct (resolved_scene w entry); reflexivity.
Qed.

(** C10.  When the scenes folder of [baseDir] lists [scenes],
    [resolveScenesFromFS] returns one ExtraSceneInfo for every listed file
    that resolves, in order; its [scene_path] is the file's path and its
    [scene_name] is the file's object name with the first occurrence of
    [.json] taken out, wherever in the name that occurrence is: of
    [a.json.b.json] it leaves [a.b.json]. *)
Theorem resolveScenesFromFS_names baseDir w scenes :
  directories w !! joinPath baseDir fileNames_scenesFolder = Some scenes ->
  resolveScenesFromFS baseDir w = (Ok (omap (resolved_scene w) scenes), w) /\
  (forall entry info,
     resolved_scene w entry = Some info ->
     scene_name info = replace ".json" "" (getObjFromPath (path entry)) /\
     scene_path info = path entry) /\
  (forall pre post,
     (forall n, n < String.length pre ->
        String.prefix ".json" (string_drop n (pre ++ ".json" ++ post)) = false) ->
     replace ".json" "" (pre ++ ".json" ++ post) = pre ++ post) /\
  replace ".json" "" "a.json.b.json" = "a.b.json".
Proof.
  intros Hdir. split; [|split; [|split]].
  - unfold resolveScenesFromFS, io_bind, readDir. rewrite Hdir.
    apply resolveScenes_loop_eq.
  - intros entry info. unfold resolved_scene.
    destruct (resolveSceneInfo (path entry) w) as [[v|e] w1];
      [intros [= <-]; split; reflexivity | discriminate].
  - intros pre post Hfirst.
    rewrite (replace_first_occurrence ".json" "" pre post Hfirst).
    reflexivity.
  - reflexivity.
Qed.
End Scenes.

(** ** Creating a story *)

Section Create.
Context {RT : Runtime} {ST : Strings} {UT : Utils} {TP : Templates}
  {MP : ModulePaths}.

Lemma serialize_MultipleChoices i (l : list MultipleChoice) :
  serialize_elements None i (MultipleChoice_value <$> l) =
  Ok (MultipleChoice_json <$> l).
Proof.
  revert i. induction l as [|c l IH]; intros i; [reflexivity|].
  rewrite !fmap_cons.
  change (serialize_elements None i (?x :: ?r))
    with (j <-? serialize None (index_key i) x ;;
          js <-? serialize_elements None (S i) r ;;
          Ok (default JNull j :: js)).
  rewrite IH. reflexivity.
Qed.

Lemma serialize_nullable key o :
  serialize None key (nullable o) = Ok (Some (nullable_json o)).
Proof. destruct o; reflexivity. Qed.

Lemma serialize_SceneActions key (a : SceneActions) :
  serialize None key (SceneActions_value a) = Ok (Some (SceneActions_json a)).
Proof.
  rewrite serialize_unfold. unfold SceneActions_value, SceneActions_json.
  simpl. rewrite serialize_unfold. simpl.
  destruct (multiple_choice a) as [l|]; simpl.
  - rewrite serialize_MultipleChoices. simpl.
    rewrite serialize_nullable. reflexivity.
  - rewrite serialize_nullable. reflexivity.
Qed.

Lemma JSON_stringify_StoryInfo (s : StoryInfo) :
  JSON_stringify (StoryInfo_value s) None =
  Ok (Some (JSON_text (StoryInfo_json s))).
Proof. reflexivity. Qed.

Lemma JSON_stringify_SceneInfo (s : SceneInfo) :
  JSON_stringify (SceneInfo_value s) None =
  Ok (Some (JSON_text (SceneInfo_json s))).
Proof.
  unfold JSON_stringify, JSON_stringify_tree, SceneInfo_value, SceneInfo_json.
  rewrite serialize_unfold.
  cbn [apply_replacer serialize_kept serialize_members result_bind].
  rewrite !serialize_nullable, serialize_SceneActions. reflexivity.
Qed.

Lemma createNewStory_run story_title story_description story_author w :
  createNewStory story_title story_description story_author w =
  (Ok (new_base_dir w),
   {| textFiles :=
        <[joinPath (joinPath (new_base_dir w) fileNames_scenesFolder)
            fileNames_secondScene :=
            JSON_text (SceneInfo_json templateSceneInfo2)]>
        (<[joinPath (joinPath (new_base_dir w) fileNames_scenesFolder)
             fileNames_firstScene :=
             JSON_text (SceneInfo_json templateSceneInfo1)]>
        (<[joinPath (new_base_dir w) fileNames_core :=
             JSON_text
               (StoryInfo_json
                  (templateStoryInfo story_title story_description
                     story_author))]>
        (textFiles w)));
      binaryFiles :=
        <[joinPath (joinPath (new_base_dir w) fileNames_resourcesFolder)
            fileNames_thumbnail := bookUint8Array]>
        (binaryFiles w);
      directories := new_story_listings (new_base_dir w) (directories w);
      isSecureContext := isSecureContext w;
      uuidsDrawn := S (uuidsDrawn w) |}).
Proof.
  unfold createNewStory, io_bind, io_lift, io_ret, newUUID,
    createDir_recursive, writeBinaryFile.
  rewrite JSON_stringify_StoryInfo, !JSON_stringify_SceneInfo.
  reflexivity.
Qed.

(** The directories of a new story: the two it is made of exist, with
    every directory above them; whatever was listed before still is, old
    entries first; and no directory appears besides these. *)
Lemma new_story_listings_grow baseDir dirs :
  grows dirs (new_story_listings baseDir dirs).
Proof.
  unfold new_story_listings.
  do 4 (eapply grows_trans; [|apply listed_grows]).
  eapply grows_trans; apply created_recursively_grows.
Qed.

Lemma new_story_listings_exist baseDir dirs d :
  let scenesDir := joinPath baseDir fileNames_scenesFolder in
  let resourcesDir := joinPath baseDir fileNames_resourcesFolder in
  d = scenesDir \/ d = resourcesDir \/
  d ∈ ancestors scenesDir \/ d ∈ ancestors resourcesDir ->
  is_Some (new_story_listings baseDir dirs !! d).
Proof.
  intros scenesDir resourcesDir Hd. unfold new_story_listings.
  rewrite !listed_dom. fold scenesDir resourcesDir.
  destruct Hd as [->|[->|[Hd|Hd]]].
  - eapply grows_exists; [apply created_recursively_grows|].
    apply created_recursively_exists.
  - apply created_recursively_exists.
  - eapply grows_exists; [apply created_recursively_grows|].
    apply created_recursively_ancestors, Hd.
  - apply created_recursively_ancestors, Hd.
Qed.

Lemma new_story_listings_dom baseDir dirs d :
  let scenesDir := joinPath baseDir fileNames_scenesFolder in
  let resourcesDir := joinPath baseDir fileNames_resourcesFolder in
  is_Some (new_story_listings baseDir dirs !! d) ->
  is_Some (dirs !! d) \/ d = scenesDir \/ d = resourcesDir \/
  d ∈ ancestors scenesDir \/ d ∈ ancestors resourcesDir.
Proof.
  intros scenesDir resourcesDir. unfold new_story_listings.
  rewrite !listed_dom. fold scenesDir resourcesDir. intros Hd.
  destruct (created_recursively_dom _ _ _ Hd) as [H|[H|H]]; auto.
  destruct (created_recursively_dom _ _ _ H) as [H'|[H'|H']]; auto.
Qed.

End Create.

(** ** From a scene path back to the base directory *)

Lemma split_nonempty sep s : split sep s <> [].
Proof.
  destruct s as [|c r]; simpl; [discriminate|].
  destruct (decide (c = sep)); [discriminate|].
  destruct (split sep r); discriminate.
Qed.

Lemma split_app_sep sep a b :
  split sep (a ++ String sep b) = (split sep a ++ split sep b)%list.
Proof.
  induction a as [|c a IH].
  - rewrite string_app_nil. simpl.
    destruct (decide (sep = sep)); [reflexivity | congruence].
  - rewrite string_app_cons. simpl. rewrite IH.
    destruct (decide (c = sep)); [reflexivity|].
    pose proof (split_nonempty sep a).
    destruct (split sep a); [congruence | reflexivity].
Qed.

Lemma split_single sep s :
  Forall (fun c => c <> sep) (list_ascii_of_string s) -> split sep s = [s].
Proof.
  induction s as [|c s IH]; simpl; [reflexivity|].
  intros Hs. apply Forall_cons in Hs as [Hc Hs].
  destruct (decide (c = sep)); [congruence|].
  rewrite (IH Hs). reflexivity.
Qed.

Lemma join_split sep s : join sep (split sep s) = s.
Proof.
  induction s as [|c s IH]; [reflexivity|].
  simpl. pose proof (split_nonempty sep s) as Hne.
  destruct (decide (c = sep)) as [->|].
  - simpl. destruct (split sep s) as [|x xs]; [congruence|].
    rewrite string_app_nil. f_equal. exact IH.
  - destruct (split sep s) as [|x xs]; [congruence|].
    destruct xs as [|y ys]; simpl in *.
    + f_equal. exact IH.
    + rewrite string_app_cons. f_equal. exact IH.
Qed.

Lemma pop_snoc {A} (l : list A) x : pop (l ++ [x]) = l.
Proof. apply removelast_last. Qed.

Lemma map_chars_app f a b :
  map_chars f (a ++ b) = map_chars f a ++ map_chars f b.
Proof.
  induction a as [|c a IH]; [reflexivity|].
  rewrite string_app_cons. simpl. rewrite string_app_cons, IH. reflexivity.
Qed.

Lemma map_chars_id f s :
  Forall (fun c => f c = c) (list_ascii_of_string s) -> map_chars f s = s.
Proof.
  induction s as [|c s IH]; simpl; [reflexivity|].
  intros Hs. apply Forall_cons in Hs as [Hc Hs].
  rewrite Hc, (IH Hs). reflexivity.
Qed.

Section BaseDir.
Context {RT : Runtime} {ST : Strings} {UT : Utils}.

(** [resolveBaseDirFromScenePath] takes the last two components off the
    sanitized path. *)
Lemma resolveBaseDirFromScenePath_pops scenePath components a b :
  split sep (sanitizePath scenePath) = (components ++ [a; b])%list ->
  resolveBaseDirFromScenePath scenePath = join sep components.
Proof.
  intros Hsplit. unfold resolveBaseDirFromScenePath. rewrite Hsplit.
  replace (components ++ [a; b])%list with ((components ++ [a]) ++ [b])%list
    by (rewrite <- app_assoc; reflexivity).
  rewrite !pop_snoc. reflexivity.
Qed.

Lemma resolveBaseDirFromScenePath_sanitized scenePath base folder file :
  sanitizePath scenePath = base ++ String sep (folder ++ String sep file) ->
  Forall (fun c => c <> sep) (list_ascii_of_string folder) ->
  Forall (fun c => c <> sep) (list_ascii_of_string file) ->
  resolveBaseDirFromScenePath scenePath = base.
Proof.
  intros Hsan Hfolder Hfile.
  rewrite (resolveBaseDirFromScenePath_pops scenePath (split sep base)
             folder file).
  - apply join_split.
  - rewrite Hsan, !split_app_sep.
    rewrite (split_single sep folder Hfolder), (split_single sep file Hfile).
    reflexivity.
Qed.
End BaseDir.

Section SpecBaseDir.
Context {RT : Runtime} {UH : UntypedHelpers} {ST : Strings}.
#[local] Existing Instance spec_Utils.

Lemma spec_sanitizePath_component n :
  single_component n -> spec_sanitizePath n = n.
Proof.
  intros Hn. apply map_chars_id.
  eapply Forall_impl; [exact Hn|]. simpl. intros c [-> _]. reflexivity.
Qed.

Lemma single_component_no_sep n :
  single_component n -> Forall (fun c => c <> sep) (list_ascii_of_string n).
Proof. intros Hn. eapply Forall_impl; [exact Hn|]. simpl. tauto. Qed.

Lemma spec_sanitizePath_sep s :
  spec_sanitizePath (String sep s) = String sep (spec_sanitizePath s).
Proof.
  unfold spec_sanitizePath. simpl. destruct (is_slash sep); reflexivity.
Qed.

(** C9.  With the path helpers of the specification: for every base
    directory and every scene file name (one path component, as is the
    name of the scenes folder), [resolveBaseDirFromScenePath] applied to
    the base directory joined with the scenes folder and the file name
    returns the sanitized base directory; in general it returns the
    sanitized scene path without its last two components. *)
Theorem resolveBaseDirFromScenePath_of_scene baseDir sceneFile :
  single_component fileNames_scenesFolder ->
  single_component sceneFile ->
  resolveBaseDirFromScenePath
    (joinPath (joinPath baseDir fileNames_scenesFolder) sceneFile)
    = sanitizePath baseDir /\
  (forall scenePath components a b,
     split sep (sanitizePath scenePath) = (components ++ [a; b])%list ->
     resolveBaseDirFromScenePath scenePath = join sep components).
Proof.
  intros Hfolder Hfile. split.
  - apply (resolveBaseDirFromScenePath_sanitized _ _ fileNames_scenesFolder
             sceneFile).
    + simpl. unfold spec_joinPath.
      rewrite string_app_assoc, string_app_cons.
      unfold spec_sanitizePath at 1.
      rewrite map_chars_app.
      fold (spec_sanitizePath baseDir).
      fold (spec_sanitizePath (String sep (fileNames_scenesFolder ++ String sep sceneFile))).
      rewrite spec_sanitizePath_sep. unfold spec_sanitizePath at 2.
      rewrite map_chars_app.
      fold (spec_sanitizePath fileNames_scenesFolder).
      fold (spec_sanitizePath (String sep sceneFile)).
      rewrite spec_sanitizePath_sep.
      rewrite (spec_sanitizePath_component _ Hfolder).
      rewrite (spec_sanitizePath_component _ Hfile).
      reflexivity.
    + apply single_component_no_sep, Hfolder.
    + apply single_component_no_sep, Hfile.
  - intros scenePath components a b.
    apply resolveBaseDirFromScenePath_pops.
Qed.
End SpecBaseDir.

(** ** The routes *)

(** C8.  The router has exactly six routes; every one maps its path
    pattern to a view that is imported lazily; the routes whose pattern
    carries a parameter are the last three, the parameter is
    [storyInfoDir] or [baseDir], and each of them hands the route
    parameters to the view as props. *)
Theorem routes_table :
  length Router.routes = 6 /\
  Forall (fun r => Router.is_lazy (Router.component r) = true) Router.routes /\
  NoDup (Router.path <$> Router.routes) /\
  (fun r => (Router.path r, Router.params (Router.path r),
             Router.passes_params_as_props r)) <$> Router.routes =
  [("/", [], false);
   ("/playoptions", [], false);
   ("/createoptions", [], false);
   ("/storyplayback/:storyInfoDir", ["storyInfoDir"], true);
   ("/editoroverview/:storyInfoDir", ["storyInfoDir"], true);
   ("/sceneseditor/:baseDir", ["baseDir"], true)] /\
  Forall (fun r => Router.params (Router.path r) <> [] ->
                   Router.passes_params_as_props r = true) Router.routes.
Proof.
  split; [reflexivity|]. split; [repeat constructor|].
  split; [apply (bool_decide_unpack _); vm_compute; exact I|].
  split; [reflexivity|].
  repeat constructor; vm_compute; congruence.
Qed.

(** ** The sample installation *)

(** The sample story read: the stored date becomes a Date, the base
    directory is the argument. *)
Lemma resolveStoryInfo_creation_date_base_dir_sample :
  exists info,
    @resolveStoryInfo Sample.runtime Sample.strings Sample.utils
      "/data/collections/good" Sample.world
    = (Ok (VObj info), Sample.world) /\
    (forall j, jget Sample.story_document "creation_date" = Some j ->
               get info "creation_date"
               = VDate (@Date_new Sample.runtime (value_of_json j))) /\
    (forall j, jget Sample.story_document "base_dir" = Some j ->
               get info "base_dir"
               = VStr (@sanitizePath Sample.utils "/data/collections/good")).
Proof.
  apply (@resolveStoryInfo_creation_date_base_dir
           Sample.runtime Sample.strings Sample.utils
           "/data/collections/good" Sample.world
           (Sample.print (JObj Sample.story_document)) Sample.story_document).
  - vm_compute. reflexivity.
  - vm_compute. reflexivity.
  - repeat (constructor; [exact I|]). constructor.
Defined.

(** The sample story read and written back. *)
Lemma resolve_then_write_roundtrip_sample :
  exists info w' out,
    @resolveStoryInfo Sample.runtime Sample.strings Sample.utils
      "/data/collections/good" Sample.world
    = (Ok info, Sample.world) /\
    @writeStoryInfoToDisk Sample.runtime Sample.strings Sample.utils
      info "/data/collections/good" Sample.world
    = (Ok tt, w') /\
    textFiles w' !! "/data/collections/good/core.json"
      = Some (Sample.print (JObj out)) /\
    jget out "thumbnail" = Some (JStr "resources/thumbnail.png") /\
    jget out "entry_point" = Some (JStr "scenes/scene1.json") /\
    jget out "base_dir" = Some (JStr "").
Proof.
  apply (@resolve_then_write_roundtrip Sample.runtime Sample.untyped
           Sample.strings
           "/data/collections/good" Sample.world
           (Sample.print (JObj Sample.story_document)) Sample.story_document
           "resources/thumbnail.png" "scenes/scene1.json").
  - vm_compute. reflexivity.
  - vm_compute. reflexivity.
  - repeat (constructor; [exact I|]). constructor.
  - reflexivity.
  - reflexivity.
  - reflexivity.
Defined.

(** The sample collection scanned: one story that reads, one that does
    not, one StoryInfo. *)
Lemma resolveStoriesFromFS_skips_failures_sample :
  @resolveStoriesFromFS Sample.runtime Sample.strings Sample.utils Sample.paths
    Collections Sample.world
  = (Ok [VObj (@story_fields Sample.runtime Sample.utils
                 "/data/collections/good" Sample.story_document)],
     Sample.world).
Proof.
  destruct (@resolveStoriesFromFS_skips_failures
              Sample.runtime Sample.strings Sample.utils Sample.paths
              Collections Sample.world [Sample.good; Sample.bad])
    as (_ & _ & Hone).
  - vm_compute. reflexivity.
  - apply (Hone Sample.good Sample.bad).
    + left. reflexivity.
    + vm_compute. reflexivity.
    + vm_compute. reflexivity.
Defined.

(** A sample scene path taken back to its base directory. *)
Lemma resolveBaseDirFromScenePath_of_scene_sample :
  @resolveBaseDirFromScenePath Sample.runtime Sample.utils
    (@joinPath Sample.utils
       (@joinPath Sample.utils "/data\collections//good" "scenes")
       "scene1.json")
  = "/data/collections//good".
Proof.
  apply (@resolveBaseDirFromScenePath_of_scene Sample.runtime
           Sample.untyped Sample.strings
           "/data\collections//good" "scene1.json").
  - apply (bool_decide_unpack _). vm_compute. exact I.
  - apply (bool_decide_unpack _). vm_compute. exact I.
Defined.

(** The sample scenes folder listed. *)
Lemma resolveScenesFromFS_names_sample :
  exists first second,
    @resolveScenesFromFS Sample.runtime Sample.strings Sample.utils
      "/data/collections/good" Sample.world
    = (Ok [first; second], Sample.world) /\
    scene_name first = "scene1" /\
    scene_path first = "/data/collections/good/scenes/scene1.json" /\
    scene_name second = "a.b.json" /\
    scene_path second = "/data/collections/good/scenes/a.json.b.json".
Proof.
  destruct (@resolveScenesFromFS_names
              Sample.runtime Sample.strings Sample.utils
              "/data/collections/good" Sample.world
              [Sample.scene1; Sample.scene_odd])
    as (Hscan & _).
  - vm_compute. reflexivity.
  - eexists _, _. split; [rewrite Hscan; vm_compute; reflexivity|].
    repeat split; vm_compute; reflexivity.
Defined.

(** * Further properties of [story.ts] *)

(** ** What the readers do to the world, and how they fail *)

Section Readers.
Context {RT : Runtime} {ST : Strings} {UT : Utils} {TP : Templates}
  {MP : ModulePaths}.

Lemma resolveStoriesFromFS_world location w :
  (resolveStoriesFromFS location w).2 = w.
Proof.
  unfold resolveStoriesFromFS, io_bind, readDir.
  destruct location;
    (destruct (directories w !! _) as [entries|]; [|reflexivity];
     case_bool_decide; [reflexivity|];
     rewrite resolveStories_loop_eq; reflexivity).
Qed.

Lemma resolveScenesFromFS_world baseDir w :
  (resolveScenesFromFS baseDir w).2 = w.
Proof.
  unfold resolveScenesFromFS, io_bind, readDir.
  destruct (directories w !! _) as [entries|]; [|reflexivity].
  rewrite resolveScenes_loop_eq. reflexivity.
Qed.

Lemma resolveExtraStoryInfo_world baseDir w :
  (resolveExtraStoryInfo baseDir w).2 = w.
Proof.
  unfold resolveExtraStoryInfo, io_bind, readDir, io_ret.
  pose proof (resolveStoryInfo_world baseDir w) as Hw.
  destruct (resolveStoryInfo baseDir w) as [[info|e] w1]; simpl in Hw; subst;
    [|reflexivity].
  destruct (directories w !! joinPath baseDir fileNames_resourcesFolder);
    [|reflexivity].
  destruct (directories w !! joinPath baseDir fileNames_scenesFolder);
    reflexivity.
Qed.

(** X1.  None of the five readers changes the file system, whatever they
    are given and whether they return or raise. *)
Theorem readers_leave_world baseDir scenePath location w :
  after (resolveStoryInfo baseDir) w = w /\
  after (resolveSceneInfo scenePath) w = w /\
  after (resolveStoriesFromFS location) w = w /\
  after (resolveScenesFromFS baseDir) w = w /\
  after (resolveExtraStoryInfo baseDir) w = w.
Proof.
  unfold after. repeat split.
  - apply resolveStoryInfo_world.
  - apply resolveSceneInfo_world.
  - apply resolveStoriesFromFS_world.
  - apply resolveScenesFromFS_world.
  - apply resolveExtraStoryInfo_world.
Qed.

(** X2.  [resolveStoryInfo] raises when the core file of the base
    directory cannot be read (an I/O error naming the core file) or is not
    JSON (a syntax error), and the entry of a scan with that path is left
    out. *)
Theorem resolveStoryInfo_unreadable entry w :
  let core := joinPath (path entry) fileNames_core in
  textFiles w !! core = None \/
  (exists text, textFiles w !! core = Some text /\ JSON_parse_text text = None) ->
  resolveStoryInfo (path entry) w =
    (Throw match textFiles w !! core with
           | None => IOError core
           | Some _ => SyntaxError
           end, w) /\
  resolved_story w entry = None /\
  well_formed w entry = false.
Proof.
  intros core Hbad.
  assert (resolveStoryInfo (path entry) w =
          (Throw match textFiles w !! core with
                 | None => IOError core
                 | Some _ => SyntaxError
                 end, w)) as Hr.
  { unfold resolveStoryInfo, io_bind, readTextFile, io_lift, JSON_parse.
    fold core. destruct Hbad as [Hnone | (text & Hsome & Hparse)].
    - rewrite Hnone. reflexivity.
    - rewrite Hsome, Hparse. reflexivity. }
  split; [exact Hr|].
  unfold resolved_story, well_formed. rewrite Hr. split; reflexivity.
Qed.

Lemma length_omap_le {A B} (f : A -> option B) (l : list A) :
  length (omap f l) <= length l.
Proof.
  induction l as [|x l IH]; [simpl; lia|].
  change (omap f (x :: l))
    with (match f x with Some y => y :: omap f l | None => omap f l end).
  destruct (f x); simpl; lia.
Qed.

(** X3.  [resolveStoriesFromFS] raises exactly when the directory it is to
    scan cannot be listed; a failure of [readDir] is not swallowed.
    Otherwise it returns at most one value per entry, none for an empty
    directory. *)
Theorem resolveStoriesFromFS_outcomes location w :
  let dir := match location with
             | Collections => collectionsPath
             | Workspace => workspacePath
             end in
  match directories w !! dir with
  | None => resolveStoriesFromFS location w = (Throw (IOError dir), w)
  | Some entries =>
      exists storyInfos,
        resolveStoriesFromFS location w = (Ok storyInfos, w) /\
        length storyInfos <= length entries /\
        (entries = [] -> storyInfos = [])
  end.
Proof.
  intros dir. destruct (directories w !! dir) as [entries|] eqn:Hdir.
  - exists (omap (resolved_story w) entries). split; [|split].
    + unfold resolveStoriesFromFS, io_bind, readDir.
      destruct location; simpl in dir; subst dir; rewrite Hdir;
        (case_bool_decide as Hlen;
         [destruct entries; [reflexivity | simpl in Hlen; lia]
         | rewrite resolveStories_loop_eq; reflexivity]).
    + apply length_omap_le.
    + intros ->. reflexivity.
  - unfold resolveStoriesFromFS, io_bind, readDir.
    destruct location; simpl in dir; subst dir; rewrite Hdir; reflexivity.
Qed.

(** X4.  [resolveScenesFromFS] raises exactly when the scenes folder cannot
    be listed.  Otherwise every ExtraSceneInfo it returns belongs to a
    listed file, in the order of the listing, and there are at most as many
    as there are files. *)
Theorem resolveScenesFromFS_outcomes baseDir w :
  let dir := joinPath baseDir fileNames_scenesFolder in
  match directories w !! dir with
  | None => resolveScenesFromFS baseDir w = (Throw (IOError dir), w)
  | Some scenes =>
      exists sceneInfos,
        resolveScenesFromFS baseDir w = (Ok sceneInfos, w) /\
        length sceneInfos <= length scenes /\
        (scene_path <$> sceneInfos) `sublist_of` (path <$> scenes)
  end.
Proof.
  intros dir. destruct (directories w !! dir) as [scenes|] eqn:Hdir.
  - exists (omap (resolved_scene w) scenes). split; [|split].
    + unfold resolveScenesFromFS, io_bind, readDir. fold dir. rewrite Hdir.
      rewrite resolveScenes_loop_eq. reflexivity.
    + apply length_omap_le.
    + clear Hdir. induction scenes as [|entry rest IH]; [constructor|].
      simpl. unfold resolved_scene at 1.
      destruct (resolveSceneInfo (path entry) w) as [[v|e] w1]; simpl.
      * apply sublist_skip, IH.
      * apply sublist_cons, IH.
  - unfold resolveScenesFromFS, io_bind, readDir. fold dir. rewrite Hdir.
    reflexivity.
Qed.
End Readers.

(** ** Documents the revivers leave alone *)

Lemma json_nested_ind (P : json -> Prop) :
  P JNull ->
  (forall b, P (JBool b)) ->
  (forall x, P (JNum x)) ->
  (forall s, P (JStr s)) ->
  (forall l, Forall P l -> P (JArr l)) ->
  (forall m, Forall (fun kj => P kj.2) m -> P (JObj m)) ->
  forall j, P j.
Proof.
  intros Hnull Hbool Hnum Hstr Harr Hobj.
  fix IH 1. intros [ | b | x | s | l | m ].
  - exact Hnull.
  - apply Hbool.
  - apply Hnum.
  - apply Hstr.
  - apply Harr. induction l as [|x l IHl]; constructor; [apply IH | exact IHl].
  - apply Hobj. induction m as [|[k x] m IHm]; constructor;
      [apply IH | exact IHm].
Qed.

Lemma mentions_JArr special l :
  mentions special (JArr l) = mentions_elements special l.
Proof.
  simpl. induction l as [|x l IH]; [reflexivity|].
  simpl. rewrite IH. reflexivity.
Qed.

Lemma mentions_JObj special m :
  mentions special (JObj m) = mentions_members special m.
Proof.
  simpl. induction m as [|[k x] m IH]; [reflexivity|].
  simpl. rewrite IH. reflexivity.
Qed.

Lemma value_of_json_defined j : value_of_json j <> VUndef.
Proof. destruct j; discriminate. Qed.

Lemma index_key_not_story_key i : story_key (index_key i) = false.
Proof. unfold index_key. destruct (Nat.to_uint i); reflexivity. Qed.

Lemma index_key_not_scene_key i : scene_key (index_key i) = false.
Proof. unfold index_key. destruct (Nat.to_uint i); reflexivity. Qed.

(** A reviver that hands back every value under a key that is not
    [special] leaves a document alone in which no [special] key occurs. *)
Lemma internalize_plain (reviver : Reviver) (special : string -> bool) :
  (forall key v, special key = false -> reviver key v = Ok v) ->
  (forall i, special (index_key i) = false) ->
  forall j key,
    special key = false ->
    mentions special j = false ->
    internalize reviver key j = Ok (value_of_json j).
Proof.
  intros Hplain Hindex.
  induction j as [ | b | x | s | l IH | m IH ] using json_nested_ind;
    intros key Hkey Hj; try (simpl; apply Hplain; exact Hkey).
  - rewrite internalize_JArr. rewrite mentions_JArr in Hj.
    assert (forall i, revive_elements reviver i l = Ok (value_of_json <$> l))
      as Hels.
    { induction IH as [|x l Hx _ IHl]; intros i; [reflexivity|].
      simpl in Hj. apply orb_false_iff in Hj as [Hjx Hjl].
      simpl. rewrite (Hx (index_key i) (Hindex i) Hjx). simpl.
      rewrite (IHl Hjl). reflexivity. }
    rewrite Hels. simpl. apply Hplain. exact Hkey.
  - rewrite internalize_JObj. rewrite mentions_JObj in Hj.
    assert (revive_members reviver m =
            Ok ((fun kj => (kj.1, value_of_json kj.2)) <$> m)) as Hmem.
    { induction IH as [|[k x] m Hx _ IHm]; [reflexivity|].
      simpl in Hj. apply orb_false_iff in Hj as [Hj Hjm].
      apply orb_false_iff in Hj as [Hk Hjx].
      simpl in Hx. simpl. rewrite (Hx k Hk Hjx). simpl.
      rewrite (IHm Hjm). simpl.
      pose proof (value_of_json_defined x).
      destruct (value_of_json x); try reflexivity; congruence. }
    rewrite Hmem. simpl. apply Hplain. exact Hkey.
Qed.

Section Untouched.
Context {RT : Runtime} {ST : Strings} {UT : Utils} {TP : Templates}
  {MP : ModulePaths}.

Lemma story_reviver_plain baseDir key v :
  story_key key = false -> resolveStoryInfo_reviver baseDir key v = Ok v.
Proof.
  unfold story_key, resolveStoryInfo_reviver. intros Hkey.
  apply orb_false_iff in Hkey as [Hkey Hb].
  apply orb_false_iff in Hkey as [Hkey He].
  apply orb_false_iff in Hkey as [Hc Ht].
  rewrite Hc, Ht, He, Hb. reflexivity.
Qed.

Lemma scene_reviver_plain_key baseDir key v :
  scene_key key = false -> resolveSceneInfo_reviver baseDir key v = Ok v.
Proof.
  unfold scene_key. intros Hkey. apply orb_false_iff in Hkey as [Hm Ha].
  apply scene_reviver_plain; intros ->; discriminate.
Qed.

(** X5.  [resolveStoryInfo] checks no shape: when the core file is any JSON
    document in which the keys [creation_date], [thumbnail], [entry_point]
    and [base_dir] do not occur, at any depth, it succeeds and returns the
    document as it is, be it an object, an array or a scalar. *)
Theorem resolveStoryInfo_untouched baseDir w text j :
  textFiles w !! joinPath baseDir fileNames_core = Some text ->
  JSON_parse_text text = Some j ->
  mentions story_key j = false ->
  resolveStoryInfo baseDir w = (Ok (value_of_json j), w).
Proof.
  intros Hfile Hparse Hj.
  unfold resolveStoryInfo, io_bind, readTextFile, io_lift, JSON_parse.
  rewrite Hfile, Hparse.
  rewrite (internalize_plain _ story_key (story_reviver_plain baseDir)
             index_key_not_story_key j "" eq_refl Hj).
  reflexivity.
Qed.

(** X6.  [resolveSceneInfo] likewise: a scene file in which neither [media]
    nor [scene_actions] occurs is returned as it is. *)
Theorem resolveSceneInfo_untouched scenePath w text j :
  textFiles w !! scenePath = Some text ->
  JSON_parse_text text = Some j ->
  mentions scene_key j = false ->
  resolveSceneInfo scenePath w = (Ok (value_of_json j), w).
Proof.
  intros Hfile Hparse Hj.
  unfold resolveSceneInfo, io_bind, readTextFile, io_lift, JSON_parse.
  rewrite Hfile, Hparse.
  rewrite (internalize_plain _ scene_key
             (scene_reviver_plain_key (resolveBaseDirFromScenePath scenePath))
             index_key_not_scene_key j "" eq_refl Hj).
  reflexivity.
Qed.
End Untouched.

(** ** Scene actions that are not what the interface says *)

Lemma get_set_eq m key v : get (set m key v) key = v.
Proof.
  induction m as [|[k x] m IH]; simpl.
  - destruct (decide (key = key)); [reflexivity | congruence].
  - destruct (decide (k = key)) as [->|Hne]; simpl.
    + destruct (decide (key = key)); [reflexivity | congruence].
    + destruct (decide (k = key)); [congruence | exact IH].
Qed.

Lemma get_set_ne m key key' v : key <> key' -> get (set m key v) key' = get m key'.
Proof.
  intros Hne. induction m as [|[k x] m IH]; simpl.
  - destruct (decide (key = key')); [congruence | reflexivity].
  - destruct (decide (k = key)) as [->|Hk]; simpl.
    + destruct (decide (key = key')); [congruence | reflexivity].
    + destruct (decide (k = key')); [reflexivity | exact IH].
Qed.

Section SceneActionsShape.
Context {RT : Runtime} {ST : Strings} {UT : Utils} {TP : Templates}
  {MP : ModulePaths}.

Lemma resolveDestination_outcome baseDir v r :
  resolveDestination baseDir v = Ok r -> r = v \/ exists s, r = VStr s.
Proof.
  unfold resolveDestination.
  destruct (nullish v || loose_eq_end v) eqn:Hguard;
    [intros [= <-]; left; reflexivity|].
  destruct v; simpl in Hguard; try discriminate; simpl;
    try (destruct (joinPath_untyped baseDir _) as [s|e]; simpl;
         [|discriminate]);
    intros [= <-]; right; eauto.
Qed.

Lemma resolveMultipleChoice_shape baseDir v r :
  resolveMultipleChoice baseDir v = Ok r -> choice_shaped r.
Proof.
  unfold resolveMultipleChoice, choice_shaped.
  destruct v; try discriminate;
    (destruct (resolveDestination baseDir _) as [d|e]; simpl; [|discriminate];
     intros [= <-]; eauto).
Qed.

Lemma mapM_resolveMultipleChoice_shape baseDir l l' :
  mapM (resolveMultipleChoice baseDir) l = Ok l' ->
  length l' = length l /\ Forall choice_shaped l'.
Proof.
  revert l'. induction l as [|x l IH]; intros l'; simpl.
  - intros [= <-]. split; [reflexivity | constructor].
  - destruct (resolveMultipleChoice baseDir x) as [y|e] eqn:Hx; simpl;
      [|discriminate].
    destruct (mapM (resolveMultipleChoice baseDir) l) as [ys|e]; simpl;
      [|discriminate].
    intros [= <-]. destruct (IH ys eq_refl) as [Hlen Hall].
    split; [simpl; f_equal; exact Hlen|].
    constructor; [exact (resolveMultipleChoice_shape _ _ _ Hx) | exact Hall].
Qed.

(** X7.  Whenever [resolveSceneActions] returns for an object, it returns
    an object in which every property other than [multiple_choice] and
    [single_choice] is as it was; an array of choices keeps its length, and
    each choice comes back with exactly the properties [action] and
    [destination], whatever else it held; [single_choice] is unchanged or a
    string. *)
Theorem resolveSceneActions_shape m baseDir r :
  resolveSceneActions (VObj m) baseDir = Ok r ->
  exists m',
    r = VObj m' /\
    (forall key, key <> "multiple_choice" -> key <> "single_choice" ->
                 get m' key = get m key) /\
    (forall l, get m "multiple_choice" = VArr l ->
               exists l', get m' "multiple_choice" = VArr l' /\
                          length l' = length l /\
                          Forall choice_shaped l') /\
    (get m' "single_choice" = get m "single_choice" \/
     exists s, get m' "single_choice" = VStr s).
Proof.
  unfold resolveSceneActions.
  destruct (truthy (get m "multiple_choice")) eqn:Htruthy.
  - destruct (get m "multiple_choice") as [ | | | | | | l | ] eqn:Hmc;
      try discriminate.
    destruct (mapM (resolveMultipleChoice baseDir) l) as [l'|e] eqn:Hmap;
      simpl; [|discriminate].
    destruct (resolveDestination baseDir
                (get (set m "multiple_choice" (VArr l')) "single_choice"))
      as [sc|e] eqn:Hsc; simpl; [|discriminate].
    intros [= <-]. eexists. split; [reflexivity|].
    rewrite get_set_ne in Hsc by discriminate.
    split; [|split].
    + intros key Hm Hs. rewrite !get_set_ne by congruence. reflexivity.
    + intros l0 [= <-]. exists l'.
      rewrite get_set_ne by discriminate. rewrite get_set_eq.
      destruct (mapM_resolveMultipleChoice_shape _ _ _ Hmap) as [Hlen Hall].
      auto.
    + rewrite get_set_eq.
      destruct (resolveDestination_outcome _ _ _ Hsc) as [-> | Hs]; auto.
  - simpl.
    destruct (resolveDestination baseDir (get m "single_choice"))
      as [sc|e] eqn:Hsc; simpl; [|discriminate].
    intros [= <-]. eexists. split; [reflexivity|].
    split; [|split].
    + intros key Hm Hs. rewrite get_set_ne by congruence. reflexivity.
    + intros l Hl. rewrite Hl in Htruthy. discriminate.
    + rewrite get_set_eq.
      destruct (resolveDestination_outcome _ _ _ Hsc) as [-> | Hs]; auto.
Qed.

Lemma revive_members_raises reviver m key j e :
  (key, j) ∈ m ->
  internalize reviver key j = Throw e ->
  exists e', revive_members reviver m = Throw e'.
Proof.
  intros Hin Hthrow. induction m as [|[k x] m IH]; [inversion Hin|].
  simpl. destruct (internalize reviver k x) as [v|e0] eqn:Hkx; simpl;
    [|eauto].
  apply elem_of_cons in Hin as [[= <- <-] | Hin]; [congruence|].
  destruct (IH Hin) as [e' ->]. simpl. eauto.
Qed.

(** X8.  A scene file that is an object with a member [scene_actions] that
    is null or another primitive cannot be read: [resolveSceneInfo] raises,
    and [resolveScenesFromFS] leaves the file out of its result. *)
Theorem resolveSceneInfo_primitive_actions entry w text m j :
  textFiles w !! path entry = Some text ->
  JSON_parse_text text = Some (JObj m) ->
  ("scene_actions", j) ∈ m ->
  is_object j = false ->
  (exists e, resolveSceneInfo (path entry) w = (Throw e, w)) /\
  resolved_scene w entry = None.
Proof.
  intros Hfile Hparse Hin Hprim.
  assert (exists e, resolveSceneInfo (path entry) w = (Throw e, w)) as [e He].
  { unfold resolveSceneInfo, io_bind, readTextFile, io_lift, JSON_parse.
    rewrite Hfile, Hparse, internalize_JObj.
    destruct (revive_members_raises
                (resolveSceneInfo_reviver
                   (resolveBaseDirFromScenePath (path entry)))
                m "scene_actions" j TypeError Hin) as [e' ->].
    - destruct j; try discriminate; reflexivity.
    - simpl. eauto. }
  split; [eauto|]. unfold resolved_scene. rewrite He. reflexivity.
Qed.
End SceneActionsShape.

(** ** The base directory of any scene path *)

Lemma string_app_nil_r (s : string) : s ++ "" = s.
Proof.
  induction s as [|c s IH]; [reflexivity|].
  rewrite string_app_cons, IH. reflexivity.
Qed.

Lemma join_pop sep l : exists t, join sep l = join sep (pop l) ++ t.
Proof.
  induction l as [|x l IH]; [exists ""; reflexivity|].
  destruct l as [|y l].
  - exists x. reflexivity.
  - destruct IH as [t Ht].
    change (pop (x :: y :: l)) with (x :: pop (y :: l)).
    change (join sep (x :: y :: l)) with (x ++ String sep (join sep (y :: l))).
    rewrite Ht. destruct (pop (y :: l)) as [|z zs] eqn:Hpop.
    + exists (String sep t). reflexivity.
    + exists t.
      change (join sep (x :: z :: zs)) with (x ++ String sep (join sep (z :: zs))).
      rewrite string_app_assoc, string_app_cons. reflexivity.
Qed.

Lemma length_pop {A} (l : list A) : length (pop l) = pred (length l).
Proof.
  induction l as [|x l IH]; [reflexivity|].
  destruct l as [|y l]; [reflexivity|].
  change (pop (x :: y :: l)) with (x :: pop (y :: l)).
  simpl in *. rewrite IH. reflexivity.
Qed.

Lemma Forall_pop {A} (P : A -> Prop) (l : list A) :
  Forall P l -> Forall P (pop l).
Proof.
  induction 1 as [|x l Hx Hl IH]; [constructor|].
  destruct l as [|y l]; [constructor|].
  change (pop (x :: y :: l)) with (x :: pop (y :: l)).
  constructor; assumption.
Qed.

Lemma length_split sep s : length (split sep s) = S (count_char sep s).
Proof.
  induction s as [|c s IH]; [reflexivity|].
  simpl. destruct (decide (c = sep)); simpl.
  - rewrite IH. reflexivity.
  - destruct (split sep s); simpl in *; lia.
Qed.

Lemma split_clean sep s :
  Forall (fun x => count_char sep x = 0) (split sep s).
Proof.
  induction s as [|c s IH]; [repeat constructor|].
  simpl. destruct (decide (c = sep)) as [|Hne].
  - constructor; [reflexivity | exact IH].
  - destruct (split sep s) as [|x xs]; [repeat constructor|].
    + simpl. destruct (decide (c = sep)); [congruence | reflexivity].
    + apply Forall_cons in IH as [Hx Hxs]. constructor; [|exact Hxs].
      simpl. destruct (decide (c = sep)); [congruence | exact Hx].
Qed.

Lemma count_char_app c a b :
  count_char c (a ++ b) = count_char c a + count_char c b.
Proof.
  induction a as [|x a IH]; [reflexivity|].
  rewrite string_app_cons. simpl. rewrite IH. lia.
Qed.

Lemma count_char_join sep l :
  Forall (fun x => count_char sep x = 0) l ->
  count_char sep (join sep l) = pred (length l).
Proof.
  induction 1 as [|x l Hx Hl IH]; [reflexivity|].
  destruct l as [|y l]; [simpl; exact Hx|].
  change (join sep (x :: y :: l)) with (x ++ String sep (join sep (y :: l))).
  rewrite count_char_app, Hx.
  change (count_char sep (String sep ?r))
    with ((if decide (sep = sep) then 1 else 0) + count_char sep r).
  rewrite IH. destruct (decide (sep = sep)); [reflexivity | congruence].
Qed.

Section BaseDirAnyPath.
Context {RT : Runtime} {ST : Strings} {UT : Utils}.

(** X9.  For every path, [resolveBaseDirFromScenePath] returns a prefix of
    the sanitized path.  With fewer than two separators in the sanitized
    path it returns the empty string; otherwise what it returns has exactly
    two separators fewer. *)
Theorem resolveBaseDirFromScenePath_prefix scenePath :
  String.prefix (resolveBaseDirFromScenePath scenePath)
    (sanitizePath scenePath) = true /\
  (count_char sep (sanitizePath scenePath) <= 1 ->
   resolveBaseDirFromScenePath scenePath = "") /\
  (2 <= count_char sep (sanitizePath scenePath) ->
   count_char sep (resolveBaseDirFromScenePath scenePath) + 2
   = count_char sep (sanitizePath scenePath)).
Proof.
  unfold resolveBaseDirFromScenePath.
  set (s := sanitizePath scenePath). set (l := split sep s).
  assert (length l = S (count_char sep s)) as Hlen by apply length_split.
  split; [|split].
  - destruct (join_pop sep l) as [t1 H1].
    destruct (join_pop sep (pop l)) as [t2 H2].
    rewrite <- (join_split sep s). fold l.
    rewrite H1, H2, string_app_assoc. apply prefix_app.
  - intros Hfew.
    assert (length (pop (pop l)) = 0) as Hnil
      by (rewrite !length_pop, Hlen; simpl; lia).
    destruct (pop (pop l)); [reflexivity | discriminate].
  - intros Hmany.
    rewrite count_char_join
      by (apply Forall_pop, Forall_pop, split_clean).
    rewrite !length_pop, Hlen. simpl. lia.
Qed.
End BaseDirAnyPath.

(** ** Creating a story and reading it *)

Section CreateAndRead.
Context {RT : Runtime} {ST : Strings} {UT : Utils} {TP : Templates}
  {MP : ModulePaths}.

(** X10.  [createNewStory] touches nothing but what it creates: every
    text file other than the core file and the two scenes of the new story
    and every binary file other than its thumbnail are as before; every
    directory that was listed still is, with the entries it had before
    any new one; the two new directories and every directory above them
    exist, and no directory appears besides these; one more identifier has
    been drawn. *)
Theorem createNewStory_frame story_title story_description story_author w :
  let baseDir := new_base_dir w in
  let scenesDir := joinPath baseDir fileNames_scenesFolder in
  let resourcesDir := joinPath baseDir fileNames_resourcesFolder in
  let w' :=
    after (createNewStory story_title story_description story_author) w in
  (forall p, p <> joinPath baseDir fileNames_core ->
             p <> joinPath scenesDir fileNames_firstScene ->
             p <> joinPath scenesDir fileNames_secondScene ->
             textFiles w' !! p = textFiles w !! p) /\
  (forall p, p <> joinPath resourcesDir fileNames_thumbnail ->
             binaryFiles w' !! p = binaryFiles w !! p) /\
  (forall d l, directories w !! d = Some l ->
               exists more, directories w' !! d = Some (l ++ more)%list) /\
  (forall d, is_Some (directories w' !! d) <->
             is_Some (directories w !! d) \/
             d = scenesDir \/ d = resourcesDir \/
             d ∈ ancestors scenesDir \/ d ∈ ancestors resourcesDir) /\
  uuidsDrawn w' = S (uuidsDrawn w) /\
  isSecureContext w' = isSecureContext w.
Proof.
  intros baseDir scenesDir resourcesDir w'. subst w'. unfold after.
  rewrite createNewStory_run. simpl. fold baseDir scenesDir resourcesDir.
  split; [|split; [|split; [|split; [|split; reflexivity]]]].
  - intros p Hc H1 H2. rewrite !lookup_insert_ne by congruence. reflexivity.
  - intros p Ht. rewrite lookup_insert_ne by congruence. reflexivity.
  - apply new_story_listings_grow.
  - intros d. split; [apply new_story_listings_dom|].
    intros [Hd|Hd]; [|apply new_story_listings_exist, Hd].
    eapply grows_exists; [apply new_story_listings_grow|exact Hd].
Qed.

Lemma story_document_StoryInfo_json (s : StoryInfo) members :
  StoryInfo_json s = JObj members -> story_document members.
Proof.
  intros [= <-]. unfold story_document, date_json.
  repeat (constructor; [exact I|]).
  constructor; [|repeat (constructor; [exact I|]); constructor].
  unfold story_member. simpl.
  destruct (is_finite (creation_date s)); [exact I | split; discriminate].
Qed.

(** X11.  A story just created can be read: provided the core file is not
    one of the two scene files and the engine reads back the story document
    it printed, [resolveStoryInfo] on the returned base directory succeeds
    with the template's title, description and author, its thumbnail and
    entry point joined to the base directory, and the sanitized base
    directory. *)
Theorem createNewStory_then_resolveStoryInfo
    story_title story_description story_author w :
  let template :=
    templateStoryInfo story_title story_description story_author in
  let baseDir := new_base_dir w in
  let scenesDir := joinPath baseDir fileNames_scenesFolder in
  let w' :=
    after (createNewStory story_title story_description story_author) w in
  joinPath baseDir fileNames_core <> joinPath scenesDir fileNames_firstScene ->
  joinPath baseDir fileNames_core <> joinPath scenesDir fileNames_secondScene ->
  JSON_parse_text (JSON_text (StoryInfo_json template))
    = Some (StoryInfo_json template) ->
  (createNewStory story_title story_description story_author w).1 = Ok baseDir /\
  resolveStoryInfo baseDir w' =
  (Ok (VObj [("title", VStr (title template));
             ("description", VStr (description template));
             ("author", VStr (author template));
             ("creation_date",
              VDate (Date_new (value_of_json (date_json (creation_date template)))));
             ("thumbnail", VStr (joinPath baseDir (thumbnail template)));
             ("entry_point", VStr (joinPath baseDir (entry_point template)));
             ("base_dir", VStr (sanitizePath baseDir))]), w').
Proof.
  intros template baseDir scenesDir w' H1 H2 Hparse. subst w'. unfold after.
  rewrite createNewStory_run. split; [reflexivity|]. simpl.
  fold baseDir scenesDir template.
  destruct (StoryInfo_json template) as [ | | | | | members] eqn:Hjson;
    try discriminate.
  rewrite (resolveStoryInfo_document baseDir _
             (JSON_text (JObj members)) members).
  - injection Hjson as <-. reflexivity.
  - simpl. rewrite !lookup_insert_ne by congruence. apply lookup_insert_eq.
  - exact Hparse.
  - exact (story_document_StoryInfo_json template members Hjson).
Qed.

Lemma SceneInfo_json_scene_json (s : SceneInfo) :
  SceneInfo_json s =
  scene_json (center_text s) (narration_text s) (background_color s) (media s)
    (scene_choices s) (single_choice (scene_actions s)).
Proof.
  unfold SceneInfo_json, scene_json, SceneActions_json, actions_json,
    scene_choices.
  destruct (multiple_choice (scene_actions s)) as [l|]; simpl; [|reflexivity].
  do 6 f_equal. rewrite <- list_fmap_compose. reflexivity.
Qed.

(** X12.  The first scene of a story just created can be read: provided
    the two scene files are different files and the engine reads back the
    scene document it printed, [resolveSceneInfo] on the first scene file
    succeeds with the template's texts and colour, and with its media and
    every destination resolved against the base directory that
    [resolveBaseDirFromScenePath] derives from the scene file's path. *)
Theorem createNewStory_then_resolveSceneInfo
    story_title story_description story_author w :
  let scenesDir := joinPath (new_base_dir w) fileNames_scenesFolder in
  let scenePath := joinPath scenesDir fileNames_firstScene in
  let baseDir := resolveBaseDirFromScenePath scenePath in
  let w' :=
    after (createNewStory story_title story_description story_author) w in
  scenePath <> joinPath scenesDir fileNames_secondScene ->
  JSON_parse_text (JSON_text (SceneInfo_json templateSceneInfo1))
    = Some (SceneInfo_json templateSceneInfo1) ->
  resolveSceneInfo scenePath w' =
  (Ok (scene_value
         (center_text templateSceneInfo1)
         (narration_text templateSceneInfo1)
         (background_color templateSceneInfo1)
         (joinPath baseDir <$> media templateSceneInfo1)
         (fmap (M := list) (resolved_choice baseDir)
            <$> scene_choices templateSceneInfo1)
         (resolved_destination baseDir
            (single_choice (scene_actions templateSceneInfo1)))), w').
Proof.
  intros scenesDir scenePath baseDir w' Hne Hparse. subst w'. unfold after.
  rewrite createNewStory_run. simpl. fold scenesDir scenePath.
  rewrite SceneInfo_json_scene_json in Hparse.
  erewrite resolveSceneInfo_document.
  - reflexivity.
  - simpl. rewrite lookup_insert_ne by congruence. apply lookup_insert_eq.
  - rewrite SceneInfo_json_scene_json. exact Hparse.
Qed.
End CreateAndRead.

(** ** A new story in the listings *)

Section PathStructure.
Context {RT : Runtime}.

Lemma join_joined a c l :
  join sep ((a ++ String sep c) :: l) = join sep (a :: c :: l).
Proof.
  destruct l as [|y l]; [reflexivity|].
  simpl. rewrite string_app_assoc, string_app_cons. reflexivity.
Qed.

Lemma join_snoc l n :
  l <> [] -> join sep (l ++ [n])%list = join sep l ++ String sep n.
Proof.
  induction l as [|x l IH]; intros Hne; [congruence|].
  destruct l as [|y l]; [reflexivity|].
  change (join sep ((x :: y :: l) ++ [n])%list)
    with (x ++ String sep (join sep ((y :: l) ++ [n])%list)).
  rewrite IH by discriminate.
  change (join sep (x :: y :: l)) with (x ++ String sep (join sep (y :: l))).
  rewrite string_app_assoc, string_app_cons. reflexivity.
Qed.

Lemma prefixes_from_snoc sofar l n :
  prefixes_from sofar (l ++ [n])%list =
  (prefixes_from sofar l
     ++ [(join sep (sofar :: l) ++ String sep n)%string])%list.
Proof.
  revert sofar. induction l as [|c l IH]; intros sofar; [reflexivity|].
  change (prefixes_from sofar ((c :: l) ++ [n]))
    with ((sofar ++ String sep c)
          :: prefixes_from (sofar ++ String sep c) (l ++ [n])%list).
  rewrite IH, join_joined. reflexivity.
Qed.

(** The last of the prefixes of a path is the path. *)
Lemma path_prefixes_last d : exists l, path_prefixes d = (l ++ [d])%list.
Proof.
  unfold path_prefixes. pose proof (join_split sep d) as Hd.
  destruct (split sep d) as [|x xs] eqn:E;
    [exfalso; exact (split_nonempty _ _ E)|].
  destruct xs as [|n xs _] using rev_ind.
  - exists []. simpl in Hd. subst x. reflexivity.
  - rewrite prefixes_from_snoc. exists (x :: prefixes_from x xs).
    change (x :: xs ++ [n])%list with ((x :: xs) ++ [n])%list in Hd.
    rewrite join_snoc in Hd by discriminate. rewrite Hd. reflexivity.
Qed.

Lemma path_prefixes_join d n :
  Forall (fun c => c <> sep) (list_ascii_of_string n) ->
  path_prefixes (d ++ String sep n) =
  (path_prefixes d ++ [(d ++ String sep n)%string])%list.
Proof.
  intros Hn. unfold path_prefixes.
  rewrite split_app_sep, (split_single _ _ Hn).
  pose proof (join_split sep d) as Hd.
  destruct (split sep d) as [|x xs] eqn:E;
    [exfalso; exact (split_nonempty _ _ E)|].
  cbn [app]. rewrite prefixes_from_snoc, Hd. reflexivity.
Qed.

(** The directories above [d/n] are those above [d], and [d]. *)
Lemma ancestors_join d n :
  Forall (fun c => c <> sep) (list_ascii_of_string n) -> d <> "" ->
  ancestors (d ++ String sep n) = (ancestors d ++ [d])%list.
Proof.
  intros Hn Hd. unfold ancestors. rewrite (path_prefixes_join _ _ Hn), pop_snoc.
  destruct (path_prefixes_last d) as [l Hl]. rewrite Hl, pop_snoc, filter_app.
  rewrite (filter_cons_True _ d []) by exact Hd. reflexivity.
Qed.

Lemma parent_and_name_join d n :
  Forall (fun c => c <> sep) (list_ascii_of_string n) ->
  parent_and_name (d ++ String sep n) = Some (d, n).
Proof.
  intros Hn. unfold parent_and_name.
  rewrite split_app_sep, (split_single _ _ Hn).
  pose proof (join_split sep d) as Hd.
  destruct (split sep d) as [|x xs] eqn:E;
    [exfalso; exact (split_nonempty _ _ E)|].
  transitivity (Some (join sep (pop ((x :: xs) ++ [n])),
                      List.last ((x :: xs) ++ [n])%list "")).
  { destruct xs; reflexivity. }
  rewrite pop_snoc, last_last, Hd. reflexivity.
Qed.

Lemma joined_nonempty d n : d ++ String sep n <> "".
Proof.
  destruct d; [rewrite string_app_nil|rewrite string_app_cons]; discriminate.
Qed.

(** [createDir] with [recursive: true] enters the new directory in the
    listing of the directory it lies in, and that one in the listing of
    the directory above. *)
Lemma created_recursively_entered d n dirs :
  Forall (fun c => c <> sep) (list_ascii_of_string n) -> d <> "" ->
  entered (created_recursively (d ++ String sep n) dirs) d (d ++ String sep n).
Proof.
  intros Hn Hd. unfold created_recursively.
  apply (with_new_directory_entered _ _ _ n (parent_and_name_join _ _ Hn)).
  apply ancestors_created_exist. rewrite (ancestors_join _ _ Hn Hd).
  apply elem_of_app. right. apply elem_of_cons. left. reflexivity.
Qed.

Lemma created_recursively_entered_above d u n dirs :
  Forall (fun c => c <> sep) (list_ascii_of_string u) ->
  Forall (fun c => c <> sep) (list_ascii_of_string n) -> d <> "" ->
  entered (created_recursively ((d ++ String sep u) ++ String sep n) dirs)
    d (d ++ String sep u).
Proof.
  intros Hu Hn Hd. unfold created_recursively.
  eapply entered_grows; [apply with_new_directory_grows|].
  rewrite (ancestors_join _ _ Hn (joined_nonempty d u)).
  rewrite (ancestors_join _ _ Hu Hd), !foldl_app. simpl.
  apply (with_new_directory_entered _ _ _ u (parent_and_name_join _ _ Hu)).
  apply with_new_directory_exists.
Qed.

(** The listings once a story has been made at [ws/u], in the order of
    [createNewStory]: every directory and file of the story is entered
    where it lies, and the story in the listing of [ws]. *)
Lemma listings_of_new_story ws u sc rs co th f1 f2 dirs :
  ws <> "" ->
  Forall (fun c => c <> sep) (list_ascii_of_string u) ->
  Forall (fun c => c <> sep) (list_ascii_of_string sc) ->
  Forall (fun c => c <> sep) (list_ascii_of_string rs) ->
  Forall (fun c => c <> sep) (list_ascii_of_string co) ->
  Forall (fun c => c <> sep) (list_ascii_of_string th) ->
  Forall (fun c => c <> sep) (list_ascii_of_string f1) ->
  Forall (fun c => c <> sep) (list_ascii_of_string f2) ->
  let b := ws ++ String sep u in
  let s := b ++ String sep sc in
  let r := b ++ String sep rs in
  let dirs' :=
    listed (s ++ String sep f2)
      (listed (s ++ String sep f1)
         (listed (r ++ String sep th)
            (listed (b ++ String sep co)
               (created_recursively r (created_recursively s dirs))))) in
  entered dirs' ws b /\
  entered dirs' b s /\
  entered dirs' b r /\
  entered dirs' b (b ++ String sep co) /\
  entered dirs' r (r ++ String sep th) /\
  entered dirs' s (s ++ String sep f1) /\
  entered dirs' s (s ++ String sep f2).
Proof.
  intros Hws Hu Hsc Hrs Hco Hth Hf1 Hf2 b s r dirs'. subst dirs'.
  pose proof (joined_nonempty ws u) as Hb. fold b in Hb.
  assert (entered (created_recursively s dirs) b s) as Hs
    by exact (created_recursively_entered b sc dirs Hsc Hb).
  assert (entered (created_recursively r (created_recursively s dirs)) b r)
    as Hr by exact (created_recursively_entered b rs _ Hrs Hb).
  assert (is_Some (created_recursively r (created_recursively s dirs) !! s))
    as Hs'.
  { eapply grows_exists; [apply created_recursively_grows|].
    apply created_recursively_exists. }
  split; [|split; [|split; [|split; [|split; [|split]]]]].
  - do 4 (eapply entered_grows; [apply listed_grows|]).
    eapply entered_grows; [apply created_recursively_grows|].
    exact (created_recursively_entered_above ws u sc dirs Hu Hsc Hws).
  - do 4 (eapply entered_grows; [apply listed_grows|]).
    eapply entered_grows; [apply created_recursively_grows|]. exact Hs.
  - do 4 (eapply entered_grows; [apply listed_grows|]). exact Hr.
  - do 3 (eapply entered_grows; [apply listed_grows|]).
    apply (listed_entered _ _ _ co (parent_and_name_join _ _ Hco)).
    exact (entered_exists _ _ _ Hr).
  - do 2 (eapply entered_grows; [apply listed_grows|]).
    apply (listed_entered _ _ _ th (parent_and_name_join _ _ Hth)).
    apply listed_dom, created_recursively_exists.
  - eapply entered_grows; [apply listed_grows|].
    apply (listed_entered _ _ _ f1 (parent_and_name_join _ _ Hf1)).
    rewrite !listed_dom. exact Hs'.
  - apply (listed_entered _ _ _ f2 (parent_and_name_join _ _ Hf2)).
    rewrite !listed_dom. exact Hs'.
Qed.
End PathStructure.

Section SpecCreateListed.
Context {RT : Runtime} {UH : UntypedHelpers} {ST : Strings} {TP : Templates}
  {MP : ModulePaths}.
#[local] Existing Instance spec_Utils.

(** X23.  With the [joinPath] of the specification, a story just created
    is found where it was put: provided the workspace path is not empty
    and the identifier drawn and the file and folder names have no
    separator in them, [readDir] afterwards answers for the new base
    directory with the [scenes] folder, the [resources] folder and the
    core file among its entries, for [scenes] with the two scene files,
    for [resources] with the thumbnail, and for the workspace with the new
    base directory. *)
Theorem createNewStory_listed story_title story_description story_author w :
  workspacePath <> "" ->
  single_component
    (if isSecureContext w then crypto_randomUUID (uuidsDrawn w)
     else uuidv4 (uuidsDrawn w)) ->
  single_component fileNames_scenesFolder ->
  single_component fileNames_resourcesFolder ->
  single_component fileNames_core ->
  single_component fileNames_thumbnail ->
  single_component fileNames_firstScene ->
  single_component fileNames_secondScene ->
  let baseDir := new_base_dir w in
  let scenesDir := joinPath baseDir fileNames_scenesFolder in
  let resourcesDir := joinPath baseDir fileNames_resourcesFolder in
  let w' :=
    after (createNewStory story_title story_description story_author) w in
  lists w' workspacePath baseDir /\
  lists w' baseDir scenesDir /\
  lists w' baseDir resourcesDir /\
  lists w' baseDir (joinPath baseDir fileNames_core) /\
  lists w' resourcesDir (joinPath resourcesDir fileNames_thumbnail) /\
  lists w' scenesDir (joinPath scenesDir fileNames_firstScene) /\
  lists w' scenesDir (joinPath scenesDir fileNames_secondScene).
Proof.
  intros Hws Hu Hsc Hrs Hco Hth Hf1 Hf2 baseDir scenesDir resourcesDir w'.
  subst w'. unfold after. rewrite createNewStory_run.
  destruct (listings_of_new_story workspacePath _ _ _ _ _ _ _ (directories w)
              Hws (single_component_no_sep _ Hu)
              (single_component_no_sep _ Hsc) (single_component_no_sep _ Hrs)
              (single_component_no_sep _ Hco) (single_component_no_sep _ Hth)
              (single_component_no_sep _ Hf1) (single_component_no_sep _ Hf2))
    as (H1 & H2 & H3 & H4 & H5 & H6 & H7).
  repeat split; apply entered_lists; assumption.
Qed.
End SpecCreateListed.

(** ** Writing story info and reading it *)

Section WriteAndRead.
Context {RT : Runtime} {ST : Strings} {UT : Utils} {TP : Templates}
  {MP : ModulePaths}.

Lemma writeStoryInfoToDisk_run (s : StoryInfo) baseDir w :
  writeStoryInfoToDisk (StoryInfo_value s) baseDir w =
  (Ok tt,
   {| textFiles :=
        <[joinPath baseDir fileNames_core :=
            JSON_text (written_story s baseDir)]> (textFiles w);
      binaryFiles := binaryFiles w;
      directories := listed (joinPath baseDir fileNames_core) (directories w);
      isSecureContext := isSecureContext w;
      uuidsDrawn := uuidsDrawn w |}).
Proof. reflexivity. Qed.

Lemma story_document_written (s : StoryInfo) baseDir members :
  written_story s baseDir = JObj members -> story_document members.
Proof.
  intros [= <-]. unfold story_document, date_json.
  repeat (constructor; [exact I|]).
  constructor; [|repeat (constructor; [exact I|]); constructor].
  unfold story_member. simpl.
  destruct (is_finite (creation_date s)); [exact I | split; discriminate].
Qed.

Lemma written_then_resolved (s : StoryInfo) baseDir w :
  JSON_parse_text (JSON_text (written_story s baseDir))
    = Some (written_story s baseDir) ->
  let w' := after (writeStoryInfoToDisk (StoryInfo_value s) baseDir) w in
  resolveStoryInfo baseDir w' =
  (Ok (VObj [("title", VStr (title s));
             ("description", VStr (description s));
             ("author", VStr (author s));
             ("creation_date",
              VDate (Date_new (value_of_json (date_json (creation_date s)))));
             ("thumbnail",
              VStr (joinPath baseDir
                      (convertAbsoluteToRelative (thumbnail s) baseDir)));
             ("entry_point",
              VStr (joinPath baseDir
                      (convertAbsoluteToRelative (entry_point s) baseDir)));
             ("base_dir", VStr (sanitizePath baseDir))]), w').
Proof.
  intros Hparse w'. subst w'. unfold after.
  rewrite writeStoryInfoToDisk_run. simpl.
  destruct (written_story s baseDir) as [ | | | | | members] eqn:Hjson;
    try discriminate.
  rewrite (resolveStoryInfo_document baseDir _
             (JSON_text (JObj members)) members).
  - injection Hjson as <-. reflexivity.
  - simpl. apply lookup_insert_eq.
  - exact Hparse.
  - exact (story_document_written s baseDir members Hjson).
Qed.

(** X13.  Writing a StoryInfo and reading the base directory again, with an
    engine that reads back the document it printed: title, description and
    author come back as written; the thumbnail and the entry point come
    back as the base directory joined with their relative form; [base_dir]
    comes back as the sanitized base directory, whatever the StoryInfo
    held; the date comes back as the Date of its own JSON form, so an
    invalid date, printed as null, comes back as the Date of null. *)
Theorem writeStoryInfoToDisk_then_resolveStoryInfo (s : StoryInfo) baseDir w :
  JSON_parse_text (JSON_text (written_story s baseDir))
    = Some (written_story s baseDir) ->
  let w' := after (writeStoryInfoToDisk (StoryInfo_value s) baseDir) w in
  resolveStoryInfo baseDir w' =
  (Ok (VObj [("title", VStr (title s));
             ("description", VStr (description s));
             ("author", VStr (author s));
             ("creation_date",
              VDate (Date_new (if is_finite (creation_date s)
                               then VStr (Date_toISOString (creation_date s))
                               else VNull)));
             ("thumbnail",
              VStr (joinPath baseDir
                      (convertAbsoluteToRelative (thumbnail s) baseDir)));
             ("entry_point",
              VStr (joinPath baseDir
                      (convertAbsoluteToRelative (entry_point s) baseDir)));
             ("base_dir", VStr (sanitizePath baseDir))]), w').
Proof.
  intros Hparse w'. subst w'.
  rewrite (written_then_resolved s baseDir w Hparse).
  unfold date_json. destruct (is_finite (creation_date s)); reflexivity.
Qed.
End WriteAndRead.

Section SpecWriteAndRead.
Context {RT : Runtime} {UH : UntypedHelpers} {ST : Strings} {TP : Templates}
  {MP : ModulePaths}.
#[local] Existing Instance spec_Utils.

(** X14.  With the path helpers of the specification, a StoryInfo whose
    thumbnail and entry point lie under the base directory, whose
    [base_dir] is the sanitized base directory and whose date survives its
    ISO form is read back exactly as it was written. *)
Theorem write_then_resolve_identity (s : StoryInfo) baseDir w
    relativeThumbnail relativeEntryPoint :
  thumbnail s = joinPath baseDir relativeThumbnail ->
  entry_point s = joinPath baseDir relativeEntryPoint ->
  base_dir s = sanitizePath baseDir ->
  is_finite (creation_date s) = true ->
  Date_new (VStr (Date_toISOString (creation_date s))) = creation_date s ->
  JSON_parse_text (JSON_text (written_story s baseDir))
    = Some (written_story s baseDir) ->
  let w' := after (writeStoryInfoToDisk (StoryInfo_value s) baseDir) w in
  resolveStoryInfo baseDir w' = (Ok (StoryInfo_value s), w').
Proof.
  intros Ht He Hb Hfin Hdate Hparse w'. subst w'.
  rewrite (written_then_resolved s baseDir w Hparse).
  unfold StoryInfo_value, date_json. rewrite Hfin, Ht, He, Hb.
  rewrite !spec_convert_join.
  change (value_of_json (JStr ?x)) with (VStr x). rewrite Hdate.
  reflexivity.
Qed.
End SpecWriteAndRead.

(** ** Story info with counts *)

Section Extra.
Context {RT : Runtime} {ST : Strings} {UT : Utils} {TP : Templates}
  {MP : ModulePaths}.

(** X15.  [resolveExtraStoryInfo] swallows nothing: it returns only when
    [resolveStoryInfo] returns and both folders can be listed.  Its base
    info is what [resolveStoryInfo] returns, its counts are the lengths of
    the two listings, and [resolveScenesFromFS] then returns too, with at
    most [scenes_count] scenes. *)
Theorem resolveExtraStoryInfo_returns baseDir w extra w' :
  resolveExtraStoryInfo baseDir w = (Ok extra, w') ->
  w' = w /\
  resolveStoryInfo baseDir w = (Ok (base_story_info extra), w) /\
  (exists resources,
     directories w !! joinPath baseDir fileNames_resourcesFolder
       = Some resources /\
     resources_count extra = length resources) /\
  (exists scenes sceneInfos,
     directories w !! joinPath baseDir fileNames_scenesFolder = Some scenes /\
     scenes_count extra = length scenes /\
     resolveScenesFromFS baseDir w = (Ok sceneInfos, w) /\
     length sceneInfos <= scenes_count extra).
Proof.
  unfold resolveExtraStoryInfo, io_bind, readDir, io_ret.
  pose proof (resolveStoryInfo_world baseDir w) as Hw.
  destruct (resolveStoryInfo baseDir w) as [[info|e] w1]; simpl in Hw; subst;
    [|discriminate].
  destruct (directories w !! joinPath baseDir fileNames_resourcesFolder)
    as [resources|] eqn:Hres; [|discriminate].
  destruct (directories w !! joinPath baseDir fileNames_scenesFolder)
    as [scenes|] eqn:Hsc; [|discriminate].
  intros [= <- <-]. simpl. repeat split.
  - exists resources. split; reflexivity.
  - exists scenes, (omap (resolved_scene w) scenes).
    split; [reflexivity|]. split; [reflexivity|]. split.
    + unfold resolveScenesFromFS, io_bind, readDir. rewrite Hsc.
      rewrite resolveScenes_loop_eq. reflexivity.
    + apply length_omap_le.
Qed.
End Extra.

(** ** Keys at depth *)

Section Depth.
Context {RT : Runtime} {ST : Strings} {UT : Utils} {TP : Templates}
  {MP : ModulePaths}.

(** X16.  The reviver of [resolveStoryInfo] goes by the name of the key, not
    by its place: an object of story members nested under any other key of
    the core file has its [creation_date], [thumbnail], [entry_point] and
    [base_dir] rewritten just as at the top. *)
Theorem resolveStoryInfo_nested baseDir w text key m :
  textFiles w !! joinPath baseDir fileNames_core = Some text ->
  JSON_parse_text text = Some (JObj [(key, JObj m)]) ->
  story_key key = false ->
  story_document m ->
  resolveStoryInfo baseDir w =
    (Ok (VObj [(key, VObj (story_fields baseDir m))]), w).
Proof.
  intros Hfile Hparse Hkey Hdoc.
  unfold resolveStoryInfo, io_bind, readTextFile, io_lift, JSON_parse.
  rewrite Hfile, Hparse, internalize_JObj.
  cbn [revive_members]. rewrite internalize_JObj.
  rewrite (story_revive_members baseDir m Hdoc).
  cbn [result_bind]. rewrite (story_reviver_plain baseDir key _ Hkey).
  reflexivity.
Qed.
End Depth.

(** ** Scene names *)

Lemma replace_absent pat rep s :
  (forall n, n <= String.length s ->
             String.prefix pat (string_drop n s) = false) ->
  replace pat rep s = s.
Proof.
  induction s as [|c s IH]; intros Habsent.
  - rewrite replace_unfold.
    pose proof (Habsent 0 ltac:(simpl; lia)) as H0.
    change (string_drop 0 ?x) with x in H0. rewrite H0. reflexivity.
  - rewrite replace_unfold.
    pose proof (Habsent 0 ltac:(simpl; lia)) as H0.
    change (string_drop 0 ?x) with x in H0. rewrite H0.
    f_equal. apply IH. intros n Hn.
    apply (Habsent (S n)). simpl. lia.
Qed.

Lemma list_ascii_of_string_app a b :
  list_ascii_of_string (a ++ b) =
  (list_ascii_of_string a ++ list_ascii_of_string b)%list.
Proof.
  induction a as [|c a IH]; [reflexivity|].
  rewrite string_app_cons. simpl. rewrite IH. reflexivity.
Qed.

Lemma spec_sanitizePath_with_app a b separator :
  spec_sanitizePath_with (a ++ b) separator =
  spec_sanitizePath_with a separator ++ spec_sanitizePath_with b separator.
Proof.
  induction a as [|c a IH]; [reflexivity|].
  rewrite string_app_cons. simpl. rewrite IH.
  destruct (is_slash c); [rewrite string_app_assoc|]; reflexivity.
Qed.

Lemma spec_sanitizePath_with_clean n separator :
  Forall (fun c => is_slash c = false) (list_ascii_of_string n) ->
  spec_sanitizePath_with n separator = n.
Proof.
  induction n as [|c n IH]; simpl; [reflexivity|].
  intros Hn. apply Forall_cons in Hn as [Hc Hn].
  rewrite Hc, (IH Hn). reflexivity.
Qed.

Section SceneNames.
Context {RT : Runtime} {ST : Strings} {UT : Utils} {TP : Templates}
  {MP : ModulePaths}.

(** X17.  A listed scene file whose object name holds no [.json] keeps its
    whole object name as [scene_name]: nothing else is ever cut off. *)
Theorem scene_name_without_json w entry info :
  resolved_scene w entry = Some info ->
  (forall n, n <= String.length (getObjFromPath (path entry)) ->
     String.prefix ".json" (string_drop n (getObjFromPath (path entry)))
     = false) ->
  scene_name info = getObjFromPath (path entry).
Proof.
  unfold resolved_scene.
  destruct (resolveSceneInfo (path entry) w) as [[v|e] w1]; [|discriminate].
  intros [= <-] Habsent. simpl. apply replace_absent, Habsent.
Qed.
End SceneNames.

Section SpecSceneNames.
Context {RT : Runtime} {UH : UntypedHelpers} {ST : Strings}.
#[local] Existing Instance spec_Utils.
#[local] Existing Instance spec_SeparatorUtils.

Lemma single_component_clean n :
  single_component n ->
  Forall (fun c => is_slash c = false) (list_ascii_of_string n).
Proof. intros Hn. eapply Forall_impl; [exact Hn|]. simpl. tauto. Qed.

Lemma single_component_json_suffix n :
  is_slash sep = true ->
  single_component n -> single_component (n ++ ".json").
Proof.
  intros Hsep Hn. unfold single_component.
  rewrite list_ascii_of_string_app. apply Forall_app. split; [exact Hn|].
  assert (forall c, is_slash c = false -> is_slash c = false /\ c <> sep)
    as Hc by (intros c Hc; split; [exact Hc | intros ->; congruence]).
  simpl. repeat (constructor; [apply Hc; reflexivity|]). constructor.
Qed.

(** X18.  With the path helpers of the specification (and a platform
    separator that is a slash): for a scene name that is one path component
    and holds no [.json], [sceneNameToRelativePath] gives the scenes folder,
    a forward slash, the name and [.json]; and the scene name that
    [resolveScenesFromFS] derives from that path is the name again. *)
Theorem sceneNameToRelativePath_roundtrip sceneName :
  is_slash sep = true ->
  single_component fileNames_scenesFolder ->
  single_component sceneName ->
  (forall n, n < String.length sceneName ->
     String.prefix ".json" (string_drop n (sceneName ++ ".json")) = false) ->
  sceneNameToRelativePath sceneName
    = fileNames_scenesFolder ++ "/" ++ sceneName ++ ".json" /\
  replace ".json" ""
    (getObjFromPath (sceneNameToRelativePath sceneName)) = sceneName.
Proof.
  intros Hsep Hfolder Hname Hfirst.
  pose proof (single_component_json_suffix sceneName Hsep Hname) as Hfile.
  assert (sceneNameToRelativePath sceneName
          = fileNames_scenesFolder ++ "/" ++ sceneName ++ ".json") as Hpath.
  { unfold sceneNameToRelativePath. simpl. unfold spec_joinPath.
    rewrite spec_sanitizePath_with_app.
    rewrite (spec_sanitizePath_with_clean _ _ (single_component_clean _ Hfolder)).
    simpl. rewrite Hsep.
    rewrite (spec_sanitizePath_with_clean _ _ (single_component_clean _ Hfile)).
    reflexivity. }
  split; [exact Hpath|]. rewrite Hpath. simpl. unfold spec_getObjFromPath.
  unfold spec_sanitizePath. rewrite map_chars_app.
  fold (spec_sanitizePath fileNames_scenesFolder).
  rewrite (spec_sanitizePath_component _ Hfolder).
  change ("/" ++ sceneName ++ ".json") with (String "/" (sceneName ++ ".json")).
  simpl. fold (spec_sanitizePath (sceneName ++ ".json")).
  rewrite (spec_sanitizePath_component _ Hfile).
  rewrite split_app_sep.
  rewrite (split_single sep _ (single_component_no_sep _ Hfolder)).
  rewrite (split_single sep _ (single_component_no_sep _ Hfile)).
  simpl.
  rewrite <- (string_app_nil_r sceneName) at 2.
  apply (replace_first_occurrence ".json" "" sceneName ""), Hfirst.
Qed.
End SpecSceneNames.

(** ** Writes and the other stories *)

Section Writes.
Context {RT : Runtime} {ST : Strings} {UT : Utils} {TP : Templates}
  {MP : ModulePaths}.

Lemma writeStoryInfoToDisk_atomic_frame data baseDir w p :
  p <> joinPath baseDir fileNames_core ->
  textFiles (writeStoryInfoToDisk data baseDir w).2 !! p = textFiles w !! p.
Proof.
  intros Hp. unfold writeStoryInfoToDisk, io_bind, io_lift.
  destruct (JSON_stringify data _) as [[text|]|e]; simpl; try reflexivity.
  apply lookup_insert_ne. congruence.
Qed.

(** X19.  [writeStoryInfoToDisk], on any value: when it raises, the file
    system is as it was; when it returns, the core file of the base
    directory holds a text, no other text file and no binary file has
    changed, and no directory listing has, except that the core file is
    entered, last, in the listing of its directory. *)
Theorem writeStoryInfoToDisk_atomic data baseDir w :
  match writeStoryInfoToDisk data baseDir w with
  | (Throw _, w') => w' = w
  | (Ok _, w') =>
      is_Some (textFiles w' !! joinPath baseDir fileNames_core) /\
      (forall p, p <> joinPath baseDir fileNames_core ->
                 textFiles w' !! p = textFiles w !! p) /\
      binaryFiles w' = binaryFiles w /\
      (forall d,
         directories w' !! d = directories w !! d \/
         exists l n,
           directories w !! d = Some l /\
           directories w' !! d =
             Some (l ++ [{| path := joinPath baseDir fileNames_core;
                            name := Some n |}])%list) /\
      uuidsDrawn w' = uuidsDrawn w
  end.
Proof.
  unfold writeStoryInfoToDisk, io_bind, io_lift.
  destruct (JSON_stringify data _) as [[text|]|e]; simpl; try reflexivity.
  split; [rewrite lookup_insert_eq; eauto|].
  split; [|split; [reflexivity|split; [|reflexivity]]].
  - intros p Hp. apply lookup_insert_ne. congruence.
  - intros d.
    destruct (listed_lookup (joinPath baseDir fileNames_core)
                (directories w) d) as [H|(l & n & _ & Hl & _ & H)];
      [left|right; exists l, n]; auto.
Qed.

Lemma resolveStoryInfo_reads_core baseDir w1 w2 :
  textFiles w1 !! joinPath baseDir fileNames_core
    = textFiles w2 !! joinPath baseDir fileNames_core ->
  (resolveStoryInfo baseDir w1).1 = (resolveStoryInfo baseDir w2).1.
Proof.
  intros Hsame. unfold resolveStoryInfo, io_bind, readTextFile, io_lift.
  rewrite Hsame.
  destruct (textFiles w2 !! joinPath baseDir fileNames_core); reflexivity.
Qed.

(** X20.  Writing the story info of one base directory does not change
    what [resolveStoryInfo] returns for a story with another core file,
    whatever is written and whether the write succeeds. *)
Theorem writeStoryInfoToDisk_other_story data baseDir other w :
  joinPath other fileNames_core <> joinPath baseDir fileNames_core ->
  (resolveStoryInfo other (after (writeStoryInfoToDisk data baseDir) w)).1
  = (resolveStoryInfo other w).1.
Proof.
  intros Hother. apply resolveStoryInfo_reads_core. unfold after.
  pose proof (writeStoryInfoToDisk_atomic_frame data baseDir w) as Hframe.
  apply Hframe, Hother.
Qed.
End Writes.

Section CreateAndOthers.
Context {RT : Runtime} {ST : Strings} {UT : Utils} {TP : Templates}
  {MP : ModulePaths}.

(** X21.  Creating a story does not change what [resolveStoryInfo] returns
    for a story whose core file is none of the three text files of the new
    story. *)
Theorem createNewStory_other_story
    story_title story_description story_author other w :
  let baseDir := new_base_dir w in
  let scenesDir := joinPath baseDir fileNames_scenesFolder in
  joinPath other fileNames_core <> joinPath baseDir fileNames_core ->
  joinPath other fileNames_core <> joinPath scenesDir fileNames_firstScene ->
  joinPath other fileNames_core <> joinPath scenesDir fileNames_secondScene ->
  (resolveStoryInfo other
     (after (createNewStory story_title story_description story_author) w)).1
  = (resolveStoryInfo other w).1.
Proof.
  intros baseDir scenesDir Hc H1 H2. apply resolveStoryInfo_reads_core.
  unfold after. rewrite createNewStory_run. simpl.
  fold baseDir scenesDir. rewrite !lookup_insert_ne by congruence.
  reflexivity.
Qed.

Lemma mapM_raises {A B} (f : A -> result B) (l : list A) x e :
  x ∈ l -> f x = Throw e -> exists e', mapM f l = Throw e'.
Proof.
  intros Hin Hx. induction l as [|y l IH]; [inversion Hin|].
  simpl. destruct (f y) as [b|e0] eqn:Hy; simpl; [|eauto].
  apply elem_of_cons in Hin as [-> | Hin]; [congruence|].
  destruct (IH Hin) as [e' ->]. simpl. eauto.
Qed.

(** X22.  [resolveSceneActions] raises on an object whose [multiple_choice]
    is truthy without being an array (a non-empty string, a non-zero
    number, [true], an object), and on one whose array of choices holds a
    null. *)
Theorem resolveSceneActions_malformed_choices m baseDir :
  (truthy (get m "multiple_choice") = true /\
   forall l, get m "multiple_choice" <> VArr l) \/
  (exists l, get m "multiple_choice" = VArr l /\ VNull ∈ l) ->
  exists e, resolveSceneActions (VObj m) baseDir = Throw e.
Proof.
  unfold resolveSceneActions. intros [[Htruthy Hnot] | (l & Hl & Hnull)].
  - rewrite Htruthy.
    destruct (get m "multiple_choice"); simpl; eauto.
    exfalso. eapply Hnot. reflexivity.
  - rewrite Hl. simpl.
    destruct (mapM_raises (resolveMultipleChoice baseDir) l VNull TypeError
                Hnull eq_refl) as [e ->].
    simpl. eauto.
Qed.
End CreateAndOthers.

(** ** The further properties on the sample installations *)

(** The story whose core file is not JSON raises a syntax error and is left
    out. *)
Lemma resolveStoryInfo_unreadable_sample :
  resolveStoryInfo (RT := Sample.runtime) (ST := Sample.strings)
    (UT := Sample.utils) "/data/collections/bad" Sample.world
  = (Throw SyntaxError, Sample.world) /\
  resolved_story (RT := Sample.runtime) (ST := Sample.strings)
    (UT := Sample.utils) Sample.world Sample.bad = None.
Proof.
  destruct (resolveStoryInfo_unreadable (RT := Sample.runtime)
              (ST := Sample.strings) (UT := Sample.utils)
              Sample.bad Sample.world) as (Hr & Hs & _).
  - right. exists "{ not json". split; vm_compute; reflexivity.
  - split; [exact Hr | exact Hs].
Defined.

(** A core file that holds a scene is returned as a story, unchanged. *)
Lemma resolveStoryInfo_untouched_sample :
  resolveStoryInfo (RT := Fixtures.runtime) (ST := Sample.strings)
    (UT := Fixtures.utils) "/data/collections/odd" Fixtures.world
  = (Ok (value_of_json (JObj Sample.scene_document)), Fixtures.world).
Proof.
  apply (resolveStoryInfo_untouched (RT := Fixtures.runtime)
           (ST := Sample.strings) (UT := Fixtures.utils)
           "/data/collections/odd" Fixtures.world
           (Sample.print (JObj Sample.scene_document))).
  - vm_compute. reflexivity.
  - vm_compute. reflexivity.
  - vm_compute. reflexivity.
Defined.

(** A scene file that holds a story is returned as a scene, unchanged. *)
Lemma resolveSceneInfo_untouched_sample :
  resolveSceneInfo (RT := Fixtures.runtime) (ST := Sample.strings)
    (UT := Fixtures.utils)
    "/data/collections/good/scenes/story.json" Fixtures.world
  = (Ok (value_of_json (JObj Sample.story_document)), Fixtures.world).
Proof.
  apply (resolveSceneInfo_untouched (RT := Fixtures.runtime)
           (ST := Sample.strings) (UT := Fixtures.utils)
           "/data/collections/good/scenes/story.json" Fixtures.world
           (Sample.print (JObj Sample.story_document))).
  - vm_compute. reflexivity.
  - vm_compute. reflexivity.
  - vm_compute. reflexivity.
Defined.

(** Scene actions with a note and a choice with a condition: the note
    stays, the condition goes. *)
Lemma resolveSceneActions_shape_sample :
  exists m',
    resolveSceneActions (RT := Sample.runtime) (ST := Sample.strings)
      (UT := Sample.utils) (VObj Fixtures.loose_actions) "/base"
    = Ok (VObj m') /\
    get m' "note" = VStr "keep" /\
    get m' "multiple_choice"
    = VArr [VObj [("action", VStr "Go on");
                  ("destination", VStr "/base/scenes/scene2.json")]].
Proof.
  destruct (resolveSceneActions (RT := Sample.runtime) (ST := Sample.strings)
              (UT := Sample.utils) (VObj Fixtures.loose_actions) "/base")
    as [r|e] eqn:Hr; [|vm_compute in Hr; discriminate].
  destruct (resolveSceneActions_shape (RT := Sample.runtime)
              (ST := Sample.strings) (UT := Sample.utils)
              Fixtures.loose_actions "/base" r Hr)
    as (m' & -> & Hframe & _).
  exists m'. split; [reflexivity|]. split.
  - rewrite Hframe by discriminate. reflexivity.
  - vm_compute in Hr. injection Hr as <-. reflexivity.
Defined.

(** The scene without scene actions cannot be read. *)
Lemma resolveSceneInfo_primitive_actions_sample :
  resolved_scene (RT := Fixtures.runtime) (ST := Sample.strings)
    (UT := Fixtures.utils) Fixtures.world Fixtures.broken = None.
Proof.
  apply (resolveSceneInfo_primitive_actions (RT := Fixtures.runtime)
           (ST := Sample.strings) (UT := Fixtures.utils)
           Fixtures.broken Fixtures.world
           (Sample.print (JObj Fixtures.broken_scene))
           Fixtures.broken_scene JNull).
  - vm_compute. reflexivity.
  - vm_compute. reflexivity.
  - right. left.
  - reflexivity.
Defined.

(** The story created in the sample world can be read. *)
Lemma createNewStory_then_resolveStoryInfo_sample :
  (resolveStoryInfo (RT := Sample.runtime) (ST := Sample.strings)
     (UT := Sample.utils) "/data/workspace/secure-0"
     (after (createNewStory (RT := Sample.runtime) (ST := Sample.strings)
               (UT := Sample.utils) (TP := Sample.templates)
               (MP := Sample.paths) "A walk" "Two scenes" "anon")
        Sample.world)).1
  = Ok (VObj [("title", VStr "A walk");
              ("description", VStr "Two scenes");
              ("author", VStr "anon");
              ("creation_date", VDate Sample.epoch);
              ("thumbnail",
               VStr "/data/workspace/secure-0/resources/thumbnail.png");
              ("entry_point",
               VStr "/data/workspace/secure-0/scenes/scene1.json");
              ("base_dir", VStr "/data/workspace/secure-0")]).
Proof.
  destruct (createNewStory_then_resolveStoryInfo (RT := Sample.runtime)
              (ST := Sample.strings) (UT := Sample.utils)
              (TP := Sample.templates) (MP := Sample.paths)
              "A walk" "Two scenes" "anon" Sample.world) as [_ Hread].
  - vm_compute. discriminate.
  - vm_compute. discriminate.
  - vm_compute. reflexivity.
  - change (new_base_dir (RT := Sample.runtime) (UT := Sample.utils)
              (MP := Sample.paths) Sample.world)
      with "/data/workspace/secure-0" in Hread.
    rewrite Hread. reflexivity.
Defined.

(** The first scene of the story created in the sample world can be read;
    its single choice is resolved. *)
Lemma createNewStory_then_resolveSceneInfo_sample :
  (resolveSceneInfo (RT := Fixtures.runtime) (ST := Sample.strings)
     (UT := Fixtures.utils) "/data/workspace/secure-0/scenes/scene1.json"
     (after (createNewStory (RT := Fixtures.runtime) (ST := Sample.strings)
               (UT := Fixtures.utils) (TP := Sample.templates)
               (MP := Sample.paths) "A walk" "Two scenes" "anon")
        Sample.world)).1
  = Ok (scene_value (Some "Hello") None None None None
          (Some "/data/workspace/secure-0/scenes/scene2.json")).
Proof.
  assert (Hread :=
    createNewStory_then_resolveSceneInfo (RT := Fixtures.runtime)
      (ST := Sample.strings) (UT := Fixtures.utils)
      (TP := Sample.templates) (MP := Sample.paths)
      "A walk" "Two scenes" "anon" Sample.world).
  cbv zeta in Hread.
  apply (f_equal fst) in Hread.
  - exact Hread.
  - vm_compute. discriminate.
  - vm_compute. reflexivity.
Defined.

(** The sample story written and read again. *)
Lemma writeStoryInfoToDisk_then_resolveStoryInfo_sample :
  (resolveStoryInfo (RT := Sample.runtime) (ST := Sample.strings)
     (UT := Sample.utils) "/data/collections/good"
     (after (writeStoryInfoToDisk (RT := Sample.runtime)
               (ST := Sample.strings) (UT := Sample.utils)
               (StoryInfo_value Fixtures.story) "/data/collections/good")
        Sample.world)).1
  = Ok (VObj [("title", VStr "A walk");
              ("description", VStr "Two scenes");
              ("author", VStr "anon");
              ("creation_date", VDate Sample.epoch);
              ("thumbnail",
               VStr "/data/collections/good/resources/thumbnail.png");
              ("entry_point",
               VStr "/data/collections/good/scenes/scene1.json");
              ("base_dir", VStr "/data/collections/good")]).
Proof.
  assert (Hread :=
    writeStoryInfoToDisk_then_resolveStoryInfo (RT := Sample.runtime)
      (ST := Sample.strings) (UT := Sample.utils)
      Fixtures.story "/data/collections/good" Sample.world).
  cbv zeta in Hread.
  apply (f_equal fst) in Hread.
  - exact Hread.
  - vm_compute. reflexivity.
Defined.

(** The sample story is read back exactly as it was written. *)
Lemma write_then_resolve_identity_sample :
  (resolveStoryInfo (RT := Sample.runtime) (ST := Sample.strings)
     (UT := Sample.utils) "/data/collections/good"
     (after (writeStoryInfoToDisk (RT := Sample.runtime)
               (ST := Sample.strings) (UT := Sample.utils)
               (StoryInfo_value Fixtures.story) "/data/collections/good")
        Sample.world)).1
  = Ok (StoryInfo_value Fixtures.story).
Proof.
  assert (Hread :=
    write_then_resolve_identity (RT := Sample.runtime)
      (UH := Sample.untyped) (ST := Sample.strings)
      Fixtures.story "/data/collections/good" Sample.world
      "resources/thumbnail.png" "scenes/scene1.json").
  cbv zeta in Hread.
  apply (f_equal fst) in Hread.
  - exact Hread.
  - reflexivity.
  - reflexivity.
  - reflexivity.
  - reflexivity.
  - reflexivity.
  - vm_compute. reflexivity.
Defined.

(** The sample story with its counts: one resource, three scene files, of
    which at most three are scenes. *)
Lemma resolveExtraStoryInfo_returns_sample :
  exists sceneInfos,
    resolveScenesFromFS (RT := Fixtures.runtime) (ST := Sample.strings)
      (UT := Fixtures.utils) "/data/collections/good" Fixtures.world
    = (Ok sceneInfos, Fixtures.world) /\
    length sceneInfos <= 3.
Proof.
  destruct (resolveExtraStoryInfo_returns (RT := Fixtures.runtime)
              (ST := Sample.strings) (UT := Fixtures.utils)
              "/data/collections/good" Fixtures.world
              {| base_story_info :=
                   VObj (story_fields (RT := Fixtures.runtime)
                           (UT := Fixtures.utils) "/data/collections/good"
                           Sample.story_document);
                 resources_count := 1;
                 scenes_count := 3 |}
              Fixtures.world)
    as (_ & _ & _ & scenes & sceneInfos & _ & _ & Hscan & Hlen).
  - vm_compute. reflexivity.
  - exists sceneInfos. split; [exact Hscan | exact Hlen].
Defined.

(** The story members nested under [meta] are rewritten. *)
Lemma resolveStoryInfo_nested_sample :
  resolveStoryInfo (RT := Fixtures.runtime) (ST := Sample.strings)
    (UT := Fixtures.utils) "/data/collections/nested" Fixtures.world
  = (Ok (VObj [("meta",
                VObj (story_fields (RT := Fixtures.runtime)
                        (UT := Fixtures.utils) "/data/collections/nested"
                        Sample.story_document))]),
     Fixtures.world).
Proof.
  apply (resolveStoryInfo_nested (RT := Fixtures.runtime)
           (ST := Sample.strings) (UT := Fixtures.utils)
           "/data/collections/nested" Fixtures.world
           (Sample.print Fixtures.nested_document) "meta"
           Sample.story_document).
  - vm_compute. reflexivity.
  - vm_compute. reflexivity.
  - reflexivity.
  - repeat (constructor; [exact I|]). constructor.
Defined.

(** The scene file [notes] keeps its name. *)
Lemma scene_name_without_json_sample :
  exists info,
    resolved_scene (RT := Fixtures.runtime) (ST := Sample.strings)
      (UT := Fixtures.utils) Fixtures.world Fixtures.notes = Some info /\
    scene_name info = "notes".
Proof.
  destruct (resolved_scene (RT := Fixtures.runtime) (ST := Sample.strings)
              (UT := Fixtures.utils) Fixtures.world Fixtures.notes)
    as [info|] eqn:Hinfo; [|vm_compute in Hinfo; discriminate].
  exists info. split; [reflexivity|].
  rewrite (scene_name_without_json (RT := Fixtures.runtime)
             (ST := Sample.strings) (UT := Fixtures.utils)
             Fixtures.world Fixtures.notes info Hinfo).
  - vm_compute. reflexivity.
  - change (@getObjFromPath Fixtures.utils (path Fixtures.notes))
      with "notes".
    intros n Hn.
    do 6 (destruct n as [|n]; [reflexivity|]). simpl in Hn. lia.
Defined.

(** The scene name [intro] to its relative path and back. *)
Lemma sceneNameToRelativePath_roundtrip_sample :
  sceneNameToRelativePath (ST := Sample.strings) (UT := Sample.utils)
    (SU := spec_SeparatorUtils) "intro" = "scenes/intro.json" /\
  replace ".json" ""
    (@getObjFromPath Sample.utils
       (sceneNameToRelativePath (ST := Sample.strings) (UT := Sample.utils)
          (SU := spec_SeparatorUtils) "intro")) = "intro".
Proof.
  apply (sceneNameToRelativePath_roundtrip (RT := Sample.runtime)
           (UH := Sample.untyped)
           (ST := Sample.strings) "intro").
  - reflexivity.
  - apply (bool_decide_unpack _). vm_compute. exact I.
  - apply (bool_decide_unpack _). vm_compute. exact I.
  - intros n Hn.
    do 5 (destruct n as [|n]; [reflexivity|]). simpl in Hn. lia.
Defined.

(** Writing the story of [bad] leaves the reading of [good] as it was. *)
Lemma writeStoryInfoToDisk_other_story_sample :
  (resolveStoryInfo (RT := Sample.runtime) (ST := Sample.strings)
     (UT := Sample.utils) "/data/collections/good"
     (after (writeStoryInfoToDisk (RT := Sample.runtime)
               (ST := Sample.strings) (UT := Sample.utils)
               (StoryInfo_value Fixtures.story) "/data/collections/bad")
        Sample.world)).1
  = (resolveStoryInfo (RT := Sample.runtime) (ST := Sample.strings)
       (UT := Sample.utils) "/data/collections/good" Sample.world).1.
Proof.
  apply (writeStoryInfoToDisk_other_story (RT := Sample.runtime)
           (ST := Sample.strings) (UT := Sample.utils)).
  vm_compute. discriminate.
Defined.

(** Creating a story leaves the reading of [good] as it was. *)
Lemma createNewStory_other_story_sample :
  (resolveStoryInfo (RT := Sample.runtime) (ST := Sample.strings)
     (UT := Sample.utils) "/data/collections/good"
     (after (createNewStory (RT := Sample.runtime) (ST := Sample.strings)
               (UT := Sample.utils) (TP := Sample.templates)
               (MP := Sample.paths) "T" "D" "A")
        Sample.world)).1
  = (resolveStoryInfo (RT := Sample.runtime) (ST := Sample.strings)
       (UT := Sample.utils) "/data/collections/good" Sample.world).1.
Proof.
  apply (createNewStory_other_story (RT := Sample.runtime)
           (ST := Sample.strings) (UT := Sample.utils)
           (TP := Sample.templates) (MP := Sample.paths)).
  - vm_compute. discriminate.
  - vm_compute. discriminate.
  - vm_compute. discriminate.
Defined.

(** Choices given as a string, and choices with a null among them. *)
Lemma resolveSceneActions_malformed_choices_sample :
  (exists e,
     resolveSceneActions (RT := Sample.runtime) (ST := Sample.strings)
       (UT := Sample.utils)
       (VObj [("multiple_choice", VStr "later")]) "/base" = Throw e) /\
  (exists e,
     resolveSceneActions (RT := Sample.runtime) (ST := Sample.strings)
       (UT := Sample.utils)
       (VObj [("multiple_choice", VArr [VNull])]) "/base" = Throw e).
Proof.
  split.
  - apply (resolveSceneActions_malformed_choices (RT := Sample.runtime)
             (ST := Sample.strings) (UT := Sample.utils)).
    left. split; [reflexivity | intros l; discriminate].
  - apply (resolveSceneActions_malformed_choices (RT := Sample.runtime)
             (ST := Sample.strings) (UT := Sample.utils)).
    right. exists [VNull]. split; [reflexivity | left].
Defined.

(** A story made in the sample workspace is listed there, and its files
    where they lie. *)
Lemma createNewStory_listed_sample :
  let w' :=
    after (createNewStory (RT := Sample.runtime) (ST := Sample.strings)
             (UT := Sample.utils) (TP := Sample.templates)
             (MP := Sample.paths) "A walk" "Two scenes" "anon")
      Sample.world in
  lists w' "/data/workspace" "/data/workspace/secure-0" /\
  lists w' "/data/workspace/secure-0" "/data/workspace/secure-0/scenes" /\
  lists w' "/data/workspace/secure-0" "/data/workspace/secure-0/resources" /\
  lists w' "/data/workspace/secure-0" "/data/workspace/secure-0/core.json" /\
  lists w' "/data/workspace/secure-0/resources"
    "/data/workspace/secure-0/resources/thumbnail.png" /\
  lists w' "/data/workspace/secure-0/scenes"
    "/data/workspace/secure-0/scenes/scene1.json" /\
  lists w' "/data/workspace/secure-0/scenes"
    "/data/workspace/secure-0/scenes/scene2.json".
Proof.
  apply (createNewStory_listed (RT := Sample.runtime) (UH := Sample.untyped)
           (ST := Sample.strings) (TP := Sample.templates)
           (MP := Sample.paths) "A walk" "Two scenes" "anon" Sample.world).
  - vm_compute. discriminate.
  - apply (bool_decide_unpack _). vm_compute. exact I.
  - apply (bool_decide_unpack _). vm_compute. exact I.
  - apply (bool_decide_unpack _). vm_compute. exact I.
  - apply (bool_decide_unpack _). vm_compute. exact I.
  - apply (bool_decide_unpack _). vm_compute. exact I.
  - apply (bool_decide_unpack _). vm_compute. exact I.
  - apply (bool_decide_unpack _). vm_compute. exact I.
Defined.
